(** * Moebius strip: discretisation, surface area and edge length

    A shallow embedding of [mobius_strip.py] (class [MobiusStrip]) and the
    properties of its two estimators.

    Numbers.  The script computes in IEEE-754 binary64.  Here a float64 is
    idealised as a real number of [R]: every operation is the exact one
    ([cos], [sin], [sqrt], [PI] of the standard library).  Rounding,
    overflow and NaN are outside this model.

    Arrays.  A 1-D numpy array is a [list R], a 2-D array a list of rows
    ([list (list R)], axis 0 = rows, axis 1 = columns).

    Errors.  A Python exception is [None] in an [option]; the methods run in
    a small state-and-error monad over the instance. *)

From Stdlib Require Import Reals Lra Lia List Arith Psatz.
Import ListNotations.
Local Open Scope R_scope.

(* ================================================================== *)
(** ** The numpy primitives the script uses *)
(* ================================================================== *)

Module Np.

Definition vec := list R.
Definition arr := list (list R).

(** Elementwise binary operation on two arrays of the same shape. *)
Fixpoint map2 {A B C : Type} (f : A -> B -> C) (l1 : list A) (l2 : list B)
  : list C :=
  match l1, l2 with
  | a :: l1', b :: l2' => f a b :: map2 f l1' l2'
  | _, _ => []
  end.

Definition amap (f : R -> R) (a : arr) : arr := map (map f) a.
Definition amap2 (f : R -> R -> R) (a b : arr) : arr := map2 (map2 f) a b.

(** [a[i][j]] *)
Definition get2 (a : arr) (i j : nat) : R := nth j (nth i a []) 0.

(** [np.arange(0, num)] as floats. *)
Definition arange (num : nat) : vec := map INR (seq 0 num).

(** [y[-1] = s] on a non-empty array. *)
Definition set_last (y : vec) (s : R) : vec := removelast y ++ [s].

(** [np.linspace(start, stop, num)] with [endpoint=True]:
    [div = num - 1], [delta = stop - start], [step = delta / div];
    [y = arange(0, num) * step + start] (through [y / div * delta] when the
    step is zero, and [y * delta] when [div] is not positive); the last
    sample is then overwritten by [stop] when [num > 1]. *)
Definition linspace (start stop : R) (num : nat) : vec :=
  let div := (num - 1)%nat in
  let delta := stop - start in
  let y := arange num in
  let y :=
    if (0 <? div)%nat then
      let step := delta / INR div in
      if Req_dec_T step 0
      then map (fun a => a / INR div * delta) y
      else map (fun a => a * step) y
    else map (fun a => a * delta) y in
  let y := map (fun a => a + start) y in
  if (1 <? num)%nat then set_last y stop else y.

(** [np.meshgrid(a, b)] (indexing ['xy']): both results have [len b] rows
    and [len a] columns; the first repeats [a] on every row, the second
    holds [b[i]] all along row [i]. *)
Definition meshgrid (a b : vec) : arr * arr :=
  (map (fun _ => a) b, map (fun bi => map (fun _ => bi) a) b).

(** [np.gradient] along the outer axis of a list, spacing [dx], edge order 1:
    [out[1:-1] = (f[2:] - f[:-2]) / (2 dx)], [out[0] = (f[1] - f[0]) / dx],
    [out[-1] = (f[-1] - f[-2]) / dx]; fewer than two samples raise. *)
Section Gradient.
Context {A : Type}.
Variable sub : A -> A -> A.
Variable divs : A -> R -> A.
Variable d : A.

Definition gradient (dx : R) (f : list A) : option (list A) :=
  let n := length f in
  if (n <? 2)%nat then None
  else
    let interior :=
      map2 (fun a b => divs (sub a b) (2 * dx))
           (skipn 2 f) (firstn (n - 2) f) in
    let out0 := divs (sub (nth 1 f d) (nth 0 f d)) dx in
    let outn := divs (sub (nth (n - 1) f d) (nth (n - 2) f d)) dx in
    Some (out0 :: interior ++ [outn]).
End Gradient.

(** The one-dimensional instance, unit spacing by default in the callers. *)
Definition gradient1 (dx : R) (f : vec) : option vec :=
  gradient Rminus Rdiv 0 dx f.

(** Collect row results, failing as soon as one row fails. *)
Fixpoint sequence {A : Type} (l : list (option A)) : option (list A) :=
  match l with
  | [] => Some []
  | None :: _ => None
  | Some a :: l' =>
      match sequence l' with Some r => Some (a :: r) | None => None end
  end.

(** [np.gradient(f, axis=1)]: differences along the columns, inside each
    row.  The axis length is the row length; an array with no row has
    shape (0, 0) here and raises like any axis shorter than two. *)
Definition gradient_axis1 (f : arr) : option arr :=
  match f with
  | [] => None
  | _ => sequence (map (gradient1 1) f)
  end.

(** [np.gradient(f, axis=0)]: differences between rows. *)
Definition gradient_axis0 (f : arr) : option arr :=
  gradient (map2 Rminus) (fun r c => map (fun a => a / c) r) [] 1 f.

(** [np.diff(x)] = [x[1:] - x[:-1]]. *)
Definition diff (x : vec) : vec := map2 Rminus (skipn 1 x) (removelast x).

(** [np.sum] of a 1-D array and of a 2-D array (all entries). *)
Definition vsum (l : vec) : R := fold_right Rplus 0 l.
Definition asum (a : arr) : R := vsum (concat a).

End Np.

Import Np.

(* ================================================================== *)
(** ** The class *)
(* ================================================================== *)

(** The instance attributes set by the constructor.  [self_R] is the
    attribute [R] (the name [R] is the type of reals here).  The resolution
    [n] ranges over the non-negative integers: [np.linspace] rejects a
    negative count, so the constructor builds no instance with [n < 0]. *)
Record MobiusStrip : Type := mkMobiusStrip {
  self_R : R;
  self_w : R;
  self_n : nat;
  self_u : arr;
  self_v : arr;
  self_x : arr;
  self_y : arr;
  self_z : arr
}.

(** State-and-error monad of the methods: a method takes [self] and gives
    back its result (or an exception) and the instance afterwards. *)
Definition M (A : Type) : Type := MobiusStrip -> option A * MobiusStrip.

Definition ret {A : Type} (a : A) : M A := fun self => (Some a, self).

Definition bind {A B : Type} (m : M A) (k : A -> M B) : M B :=
  fun self =>
    match m self with
    | (Some a, self') => k a self'
    | (None, self') => (None, self')
    end.

(** Attribute read [self.f]. *)
Definition gets {A : Type} (f : MobiusStrip -> A) : M A :=
  fun self => (Some (f self), self).

(** A computation that may raise, lifted into the monad. *)
Definition lift {A : Type} (o : option A) : M A := fun self => (o, self).

Notation "x <- m ;; k" := (bind m (fun x => k))
  (at level 61, m at next level, right associativity).

(** Python's [a / b] on a float and an int: [ZeroDivisionError] at [b = 0]. *)
Definition pydiv (a b : R) : option R :=
  if Req_dec_T b 0 then None else Some (a / b).

(** [_compute_coordinates]: the three embedding formulas, written with the
    array operations of the source. *)
Definition _compute_coordinates : M (arr * arr * arr) :=
  u <- gets self_u ;;
  v <- gets self_v ;;
  R0 <- gets self_R ;;
  let x := amap2 Rmult
             (amap (Rplus R0) (amap2 Rmult v (amap cos (amap (fun t => t / 2) u))))
             (amap cos u) in
  let y := amap2 Rmult
             (amap (Rplus R0) (amap2 Rmult v (amap cos (amap (fun t => t / 2) u))))
             (amap sin u) in
  let z := amap2 Rmult v (amap sin (amap (fun t => t / 2) u)) in
  ret (x, y, z).

(** [__init__]: the attributes [R], [w], [n], the two parameter grids, then
    the coordinate grids computed from the instance built so far. *)
Definition __init__ (R0 w : R) (n : nat) : MobiusStrip :=
  let (u, v) := meshgrid (linspace 0 (2 * PI) n)
                         (linspace (- w / 2) (w / 2) n) in
  let self := mkMobiusStrip R0 w n u v [] [] [] in
  match fst (_compute_coordinates self) with
  | Some (x, y, z) => mkMobiusStrip R0 w n u v x y z
  | None => self
  end.

(** [surface_area], statement by statement. *)
Definition surface_area : M R :=
  n <- gets self_n ;;
  du <- lift (pydiv (2 * PI) (INR n - 1)) ;;
  w <- gets self_w ;;
  dv <- lift (pydiv w (INR n - 1)) ;;
  x <- gets self_x ;;
  y <- gets self_y ;;
  z <- gets self_z ;;
  xu <- lift (gradient_axis1 x) ;;
  xv <- lift (gradient_axis0 x) ;;
  yu <- lift (gradient_axis1 y) ;;
  yv <- lift (gradient_axis0 y) ;;
  zu <- lift (gradient_axis1 z) ;;
  zv <- lift (gradient_axis0 z) ;;
  let cross_x := amap2 Rminus (amap2 Rmult yu zv) (amap2 Rmult zu yv) in
  let cross_y := amap2 Rminus (amap2 Rmult zu xv) (amap2 Rmult xu zv) in
  let cross_z := amap2 Rminus (amap2 Rmult xu yv) (amap2 Rmult yu xv) in
  let dA := amap sqrt
              (amap2 Rplus
                 (amap2 Rplus (amap (fun c => c ^ 2) cross_x)
                              (amap (fun c => c ^ 2) cross_y))
                 (amap (fun c => c ^ 2) cross_z)) in
  ret (asum dA * du * dv).

(** The first half of [edge_length] (the resampled boundary curve): the
    angle samples, the fixed offset [v = w / 2] and the three coordinate
    sequences. *)
Definition edge_samples : M (vec * vec * vec) :=
  n <- gets self_n ;;
  let u := linspace 0 (2 * PI) n in
  w <- gets self_w ;;
  let v := w / 2 in
  R0 <- gets self_R ;;
  let x := map2 Rmult
             (map (Rplus R0) (map (Rmult v) (map cos (map (fun t => t / 2) u))))
             (map cos u) in
  let y := map2 Rmult
             (map (Rplus R0) (map (Rmult v) (map cos (map (fun t => t / 2) u))))
             (map sin u) in
  let z := map (Rmult v) (map sin (map (fun t => t / 2) u)) in
  ret (x, y, z).

(** The chord lengths [ds] of [edge_length]. *)
Definition edge_chords : M vec :=
  p <- edge_samples ;;
  let '(x, y, z) := p in
  let dx := diff x in
  let dy := diff y in
  let dz := diff z in
  ret (map sqrt
         (map2 Rplus
            (map2 Rplus (map (fun c => c ^ 2) dx) (map (fun c => c ^ 2) dy))
            (map (fun c => c ^ 2) dz))).

(** [edge_length]: twice the sum of the chords. *)
Definition edge_length : M R :=
  ds <- edge_chords ;;
  ret (2 * vsum ds).

(* ================================================================== *)
(** ** Index-level view of the arrays, and the specification side *)
(** The definitions below describe single entries of the arrays and the
    closed forms of the two results; the lemmas after them show that the
    array-level code above computes exactly these. *)
(* ================================================================== *)

(** [tab n f] is the array [f 0, ..., f (n-1)]; every array the script
    builds is shown equal to such a table, which gives its entries. *)
Definition tab {A : Type} (n : nat) (f : nat -> A) : list A :=
  map f (seq 0 n).

Definition tab2 (n m : nat) (f : nat -> nat -> R) : arr :=
  tab n (fun i => tab m (f i)).

(** Finite sum [f 0 + ... + f (n-1)]. *)
Definition bigsum (n : nat) (f : nat -> R) : R := vsum (tab n f).

(** The [j]-th of [n] samples linearly spaced from [a] to [b] inclusive. *)
Definition lin (a b : R) (n j : nat) : R := a + INR j * (b - a) / INR (n - 1).

(** The gradient scheme at index [i] of a sequence [f] of [len] samples,
    unit spacing: one-sided at both ends, central in between. *)
Definition grad_at (f : nat -> R) (len i : nat) : R :=
  if (i =? 0)%nat then f 1%nat - f 0%nat
  else if (i =? len - 1)%nat then f (len - 1)%nat - f (len - 2)%nat
  else (f (i + 1)%nat - f (i - 1)%nat) / 2.

(** Angle sample [j] and width sample [i] of a resolution-[n] grid. *)
Definition u_at (n j : nat) : R := 2 * PI * INR j / INR (n - 1).

Definition v_at (w : R) (n i : nat) : R := - w / 2 + INR i * w / INR (n - 1).

(** The embedding of the parameter pair [(u, v)]. *)
Definition emb_x (R0 v u : R) : R := (R0 + v * cos (u / 2)) * cos u.

Definition emb_y (R0 v u : R) : R := (R0 + v * cos (u / 2)) * sin u.

Definition emb_z (v u : R) : R := v * sin (u / 2).

(** The area element at grid point [(i, j)] obtained from three coordinate
    tables: the six partial derivatives by the gradient scheme in index
    space ([u]-derivative along the columns, index [j]; [v]-derivative
    along the rows, index [i]), then the norm of the cross product. *)
Definition dA_of (fx fy fz : nat -> nat -> R) (n i j : nat) : R :=
  let xu := grad_at (fx i) n j in
  let xv := grad_at (fun r => fx r j) n i in
  let yu := grad_at (fy i) n j in
  let yv := grad_at (fun r => fy r j) n i in
  let zu := grad_at (fz i) n j in
  let zv := grad_at (fun r => fz r j) n i in
  sqrt ((yu * zv - zu * yv) ^ 2 + (zu * xv - xu * zv) ^ 2
        + (xu * yv - yu * xv) ^ 2).

(** Chord [i] of a sampled curve given by three coordinate sequences. *)
Definition chord_of (px py pz : nat -> R) (i : nat) : R :=
  sqrt ((px (S i) - px i) ^ 2 + (py (S i) - py i) ^ 2
        + (pz (S i) - pz i) ^ 2).

(** The mathematical sum [f 0 + ... + f (n-1)] of the specification side,
    by recursion on the number of terms.  It owes nothing to the model of
    [np.sum] ([vsum], [asum]): the formulas below are stated with it, so that
    their theorems also say that the code's summation is this sum. *)
Fixpoint sigma (n : nat) (f : nat -> R) : R :=
  match n with
  | O => 0
  | S k => sigma k f + f k
  end.

(** The surface-area formula as the specification words it: the sum of all
    area elements of the cached grids, times [du = 2 pi / (n - 1)] and
    [dv = w / (n - 1)]. *)
Definition spec_surface_area (s : MobiusStrip) : R :=
  let n := self_n s in
  let du := 2 * PI / INR (n - 1) in
  let dv := self_w s / INR (n - 1) in
  sigma n (fun i => sigma n (fun j =>
    dA_of (get2 (self_x s)) (get2 (self_y s)) (get2 (self_z s)) n i j))
  * du * dv.

(** The edge-length formula as the specification words it: the boundary
    point [j] is the embedding at [v = w / 2] and angle [2 pi j / (n - 1)];
    the result is twice the sum of the [n - 1] chords between consecutive
    points. *)
Definition spec_edge_length (R0 w : R) (n : nat) : R :=
  let px := fun j => emb_x R0 (w / 2) (2 * PI * INR j / INR (n - 1)) in
  let py := fun j => emb_y R0 (w / 2) (2 * PI * INR j / INR (n - 1)) in
  let pz := fun j => emb_z (w / 2) (2 * PI * INR j / INR (n - 1)) in
  2 * sigma (n - 1) (fun i =>
        sqrt ((px (S i) - px i) ^ 2 + (py (S i) - py i) ^ 2
              + (pz (S i) - pz i) ^ 2)).


(** Euclidean distance of two points of space. *)
Definition dist3 (p q : R * R * R) : R :=
  let '(px, py, pz) := p in
  let '(qx, qy, qz) := q in
  sqrt ((qx - px) ^ 2 + (qy - py) ^ 2 + (qz - pz) ^ 2).


(** A method is read-only when it hands the instance back unchanged. *)
Definition read_only {A : Type} (m : M A) : Prop :=
  forall s, snd (m s) = s.

(** The value of [surface_area] on a constructed instance, in closed form. *)
Definition area_value (R0 w : R) (n : nat) : R :=
  bigsum n (fun i => bigsum n (fun j =>
    dA_of (fun a b => emb_x R0 (v_at w n a) (u_at n b))
          (fun a b => emb_y R0 (v_at w n a) (u_at n b))
          (fun a b => emb_z (v_at w n a) (u_at n b)) n i j))
  * (2 * PI / INR (n - 1)) * (w / INR (n - 1)).

(** Distance of boundary sample [i] from the axis of the strip, at offset
    [v]: the radius of its projection on the plane of the core circle. *)
Definition rho (R0 v : R) (n i : nat) : R := R0 + v * cos (u_at n i / 2).

(** Chord [i] of the boundary curve at offset [v], sampled at [n] angles. *)
Definition boundary_chord (R0 v : R) (n i : nat) : R :=
  chord_of (fun j => emb_x R0 v (u_at n j)) (fun j => emb_y R0 v (u_at n j))
           (fun j => emb_z v (u_at n j)) i.

(** The value of [edge_length] on an instance, in closed form. *)
Definition edge_value (R0 w : R) (n : nat) : R :=
  2 * bigsum (n - 1) (boundary_chord R0 (w / 2) n).

(** Twice the perimeter of the regular polygon of [n - 1] sides inscribed
    in the core circle of radius [R0]. *)
Definition polygon_limit (R0 : R) (n : nat) : R :=
  4 * INR (n - 1) * R0 * sin (PI / INR (n - 1)).


(** The point of the core circle (radius [R0], in the plane [z = 0]) at
    angle [u]. *)
Definition core_point (R0 u : R) : R * R * R := (R0 * cos u, R0 * sin u, 0).

(** Entry [(i, j)] of the three coordinate grids, as a point of space. *)
Definition grid_point (s : MobiusStrip) (i j : nat) : R * R * R :=
  (get2 (self_x s) i j, get2 (self_y s) i j, get2 (self_z s) i j).

(* ================================================================== *)
(** ** Tables and finite sums *)
(* ================================================================== *)

Section TabLemmas.
Context {A : Type}.

Lemma tab_length (n : nat) (f : nat -> A) : length (tab n f) = n.
Proof. unfold tab. now rewrite length_map, length_seq. Qed.

Lemma nth_tab (n : nat) (f : nat -> A) (j : nat) (d : A) :
  (j < n)%nat -> nth j (tab n f) d = f j.
Proof.
  intros Hj. unfold tab.
  rewrite (nth_indep _ d (f 0%nat)) by (now rewrite length_map, length_seq).
  rewrite map_nth, seq_nth; auto.
Qed.

Lemma tab_ext (n : nat) (f g : nat -> A) :
  (forall j, (j < n)%nat -> f j = g j) -> tab n f = tab n g.
Proof.
  intros H. unfold tab. apply map_ext_in.
  intros j Hj. apply in_seq in Hj. apply H. lia.
Qed.

Lemma tab_S (n : nat) (f : nat -> A) : tab (S n) f = tab n f ++ [f n].
Proof. unfold tab. now rewrite seq_S, map_app. Qed.

Lemma tab_cons (n : nat) (f : nat -> A) :
  tab (S n) f = f 0%nat :: tab n (fun j => f (S j)).
Proof. unfold tab. simpl. now rewrite <- seq_shift, map_map. Qed.

Lemma tab_of_list (l : list A) (d : A) :
  l = tab (length l) (fun j => nth j l d).
Proof.
  induction l as [|a l IH]; [reflexivity|].
  cbn [length]. rewrite tab_cons. cbn [nth]. now rewrite <- IH.
Qed.

Lemma skipn_tab (k n : nat) (f : nat -> A) :
  skipn k (tab n f) = tab (n - k) (fun j => f (k + j)%nat).
Proof.
  revert n f. induction k as [|k IH]; intros n f.
  - rewrite Nat.sub_0_r. reflexivity.
  - destruct n as [|n]; [reflexivity|].
    rewrite tab_cons. cbn [skipn]. rewrite IH. reflexivity.
Qed.

Lemma firstn_tab (k n : nat) (f : nat -> A) :
  (k <= n)%nat -> firstn k (tab n f) = tab k f.
Proof.
  revert n f. induction k as [|k IH]; intros n f Hk; [reflexivity|].
  destruct n as [|n]; [lia|].
  rewrite !tab_cons. cbn [firstn]. rewrite IH by lia. reflexivity.
Qed.

Lemma removelast_tab (n : nat) (f : nat -> A) :
  removelast (tab n f) = tab (n - 1) f.
Proof.
  destruct n as [|n]; [reflexivity|].
  rewrite tab_S, removelast_last. now replace (S n - 1)%nat with n by lia.
Qed.

(** A table of at least two entries, split as numpy's gradient fills it:
    first entry, interior, last entry. *)
Lemma tab_ends (n : nat) (f : nat -> A) :
  (2 <= n)%nat ->
  tab n f = f 0%nat :: tab (n - 2) (fun j => f (S j)) ++ [f (n - 1)%nat].
Proof.
  intros Hn. destruct n as [|[|n]]; try lia.
  rewrite tab_cons. f_equal. rewrite tab_S.
  replace (S (S n) - 2)%nat with n by lia.
  replace (S (S n) - 1)%nat with (S n) by lia. reflexivity.
Qed.
End TabLemmas.

Lemma map_tab {A B : Type} (h : A -> B) (n : nat) (f : nat -> A) :
  map h (tab n f) = tab n (fun j => h (f j)).
Proof. unfold tab. now rewrite map_map. Qed.

Lemma map2_map {T A B C : Type} (h : A -> B -> C) (f : T -> A) (g : T -> B)
  (l : list T) :
  map2 h (map f l) (map g l) = map (fun a => h (f a) (g a)) l.
Proof. induction l as [|a l IH]; cbn; [reflexivity | now rewrite IH]. Qed.

Lemma map2_tab {A B C : Type} (h : A -> B -> C) (n : nat)
  (f : nat -> A) (g : nat -> B) :
  map2 h (tab n f) (tab n g) = tab n (fun j => h (f j) (g j)).
Proof. unfold tab. apply map2_map. Qed.

Lemma amap_tab2 (h : R -> R) (n m : nat) (f : nat -> nat -> R) :
  amap h (tab2 n m f) = tab2 n m (fun i j => h (f i j)).
Proof.
  unfold amap, tab2. rewrite map_tab. apply tab_ext; intros i _.
  apply map_tab.
Qed.

Lemma amap2_tab2 (h : R -> R -> R) (n m : nat) (f g : nat -> nat -> R) :
  amap2 h (tab2 n m f) (tab2 n m g) = tab2 n m (fun i j => h (f i j) (g i j)).
Proof.
  unfold amap2, tab2. rewrite map2_tab. apply tab_ext; intros i _.
  apply map2_tab.
Qed.

Lemma tab2_ext (n m : nat) (f g : nat -> nat -> R) :
  (forall i j, (i < n)%nat -> (j < m)%nat -> f i j = g i j) ->
  tab2 n m f = tab2 n m g.
Proof.
  intros H. unfold tab2. apply tab_ext; intros i Hi.
  apply tab_ext; intros j Hj. now apply H.
Qed.

Lemma get2_tab2 (n m : nat) (f : nat -> nat -> R) (i j : nat) :
  (i < n)%nat -> (j < m)%nat -> get2 (tab2 n m f) i j = f i j.
Proof.
  intros Hi Hj. unfold get2, tab2. rewrite nth_tab by assumption.
  now apply nth_tab.
Qed.

(** *** Sums *)

Lemma vsum_app (l1 l2 : vec) : vsum (l1 ++ l2) = vsum l1 + vsum l2.
Proof.
  unfold vsum. induction l1 as [|a l1 IH]; cbn; [lra | rewrite IH; lra].
Qed.

Lemma bigsum_0 (f : nat -> R) : bigsum 0 f = 0.
Proof. reflexivity. Qed.

Lemma bigsum_S (n : nat) (f : nat -> R) : bigsum (S n) f = bigsum n f + f n.
Proof. unfold bigsum. rewrite tab_S, vsum_app. cbn. lra. Qed.

(** The model of [np.sum] on a table computes the mathematical sum. *)
Lemma bigsum_sigma (n : nat) (f : nat -> R) : bigsum n f = sigma n f.
Proof.
  induction n as [|n IH]; [apply bigsum_0|].
  rewrite bigsum_S, IH. reflexivity.
Qed.

Lemma sigma_ext (n : nat) (f g : nat -> R) :
  (forall j, (j < n)%nat -> f j = g j) -> sigma n f = sigma n g.
Proof.
  induction n as [|n IH]; intros H; [reflexivity|].
  cbn [sigma]. rewrite IH by (intros; apply H; lia).
  rewrite (H n) by lia. reflexivity.
Qed.

Lemma bigsum_cons (n : nat) (f : nat -> R) :
  bigsum (S n) f = f 0%nat + bigsum n (fun j => f (S j)).
Proof. unfold bigsum. now rewrite tab_cons. Qed.

Lemma bigsum_ext (n : nat) (f g : nat -> R) :
  (forall j, (j < n)%nat -> f j = g j) -> bigsum n f = bigsum n g.
Proof. intros H. unfold bigsum. now rewrite (tab_ext n f g). Qed.

Lemma bigsum_scal (n : nat) (c : R) (f : nat -> R) :
  bigsum n (fun j => c * f j) = c * bigsum n f.
Proof.
  induction n as [|n IH]; [rewrite !bigsum_0; lra|].
  rewrite !bigsum_S, IH. lra.
Qed.

Lemma bigsum_plus (n : nat) (f g : nat -> R) :
  bigsum n (fun j => f j + g j) = bigsum n f + bigsum n g.
Proof.
  induction n as [|n IH]; [rewrite !bigsum_0; lra|].
  rewrite !bigsum_S, IH. lra.
Qed.

Lemma bigsum_const (n : nat) (c : R) : bigsum n (fun _ => c) = INR n * c.
Proof.
  induction n as [|n IH]; [rewrite bigsum_0; cbn; lra|].
  rewrite bigsum_S, IH, S_INR. lra.
Qed.

Lemma bigsum_le (n : nat) (f g : nat -> R) :
  (forall j, (j < n)%nat -> f j <= g j) -> bigsum n f <= bigsum n g.
Proof.
  induction n as [|n IH]; intros H; [rewrite !bigsum_0; lra|].
  rewrite !bigsum_S.
  assert (bigsum n f <= bigsum n g) by (apply IH; intros; apply H; lia).
  assert (f n <= g n) by (apply H; lia). lra.
Qed.

Lemma bigsum_nonneg (n : nat) (f : nat -> R) :
  (forall j, (j < n)%nat -> 0 <= f j) -> 0 <= bigsum n f.
Proof.
  intros H. rewrite <- (Rmult_0_r (INR n)), <- (bigsum_const n 0).
  now apply bigsum_le.
Qed.

(** A sum of non-negative terms is at least any one of them. *)
Lemma bigsum_ge_term (n : nat) (f : nat -> R) (k : nat) :
  (forall j, (j < n)%nat -> 0 <= f j) -> (k < n)%nat -> f k <= bigsum n f.
Proof.
  induction n as [|n IH]; intros H Hk; [lia|].
  rewrite bigsum_S.
  assert (0 <= f n) by (apply H; lia).
  assert (0 <= bigsum n f) by (apply bigsum_nonneg; intros; apply H; lia).
  destruct (Nat.eq_dec k n) as [->|Hne]; [lra|].
  assert (f k <= bigsum n f) by (apply IH; [intros; apply H|]; lia). lra.
Qed.

(** Telescoping sum of first differences. *)
Lemma bigsum_telescope (n : nat) (f : nat -> R) :
  bigsum n (fun j => f (S j) - f j) = f n - f 0%nat.
Proof.
  induction n as [|n IH]; [rewrite bigsum_0; lra|].
  rewrite bigsum_S, IH. lra.
Qed.

(** Summation in reverse order. *)
Lemma bigsum_rev (n : nat) (f : nat -> R) :
  bigsum n f = bigsum n (fun j => f (n - 1 - j)%nat).
Proof.
  induction n as [|n IH]; [reflexivity|].
  rewrite bigsum_S, bigsum_cons, IH.
  replace (S n - 1 - 0)%nat with n by lia.
  rewrite Rplus_comm. f_equal. apply bigsum_ext; intros j Hj.
  f_equal. lia.
Qed.

Lemma Rabs_bigsum_le (n : nat) (f : nat -> R) :
  Rabs (bigsum n f) <= bigsum n (fun j => Rabs (f j)).
Proof.
  induction n as [|n IH]; [rewrite !bigsum_0, Rabs_R0; lra|].
  rewrite !bigsum_S.
  eapply Rle_trans; [apply Rabs_triang|]. lra.
Qed.

Lemma asum_tab2 (n m : nat) (f : nat -> nat -> R) :
  asum (tab2 n m f) = bigsum n (fun i => bigsum m (f i)).
Proof.
  unfold asum. induction n as [|n IH]; [reflexivity|].
  unfold tab2 in *. rewrite tab_S, concat_app, vsum_app, IH, bigsum_S.
  cbn [concat]. rewrite app_nil_r. reflexivity.
Qed.

(* ================================================================== *)
(** ** The numpy primitives, entry by entry *)
(* ================================================================== *)

Lemma INR_pred_pos (n : nat) : (2 <= n)%nat -> 0 < INR (n - 1).
Proof. intros Hn. apply lt_0_INR. lia. Qed.

Lemma INR_minus_1 (n : nat) : (1 <= n)%nat -> INR n - 1 = INR (n - 1).
Proof. intros Hn. rewrite minus_INR by lia. reflexivity. Qed.

Lemma arange_tab (n : nat) : arange n = tab n INR.
Proof. reflexivity. Qed.

Lemma linspace_tab (a b : R) (n : nat) : linspace a b n = tab n (lin a b n).
Proof.
  unfold linspace. rewrite arange_tab.
  destruct n as [|[|n]].
  - reflexivity.
  - cbn. unfold lin. cbn. f_equal. lra.
  - set (m := S (S n)).
    assert (Hm : (2 <= m)%nat) by (unfold m; lia).
    pose proof (INR_pred_pos m Hm) as Hpos.
    replace (0 <? m - 1)%nat with true by (symmetry; apply Nat.ltb_lt; lia).
    replace (1 <? m)%nat with true by (symmetry; apply Nat.ltb_lt; lia).
    assert (Hy : (if Req_dec_T ((b - a) / INR (m - 1)) 0
                  then map (fun t => t / INR (m - 1) * (b - a)) (tab m INR)
                  else map (fun t => t * ((b - a) / INR (m - 1))) (tab m INR))
                 = tab m (fun j => INR j * (b - a) / INR (m - 1))).
    { destruct (Req_dec_T ((b - a) / INR (m - 1)) 0);
        rewrite map_tab; apply tab_ext; intros j _; field; lra. }
    rewrite Hy, map_tab. unfold set_last. rewrite removelast_tab.
    generalize (tab_S (m - 1) (lin a b m)).
    replace (S (m - 1)) with m by lia. intros ->. f_equal.
    + apply tab_ext; intros j _. unfold lin. lra.
    + f_equal. unfold lin. field. lra.
Qed.

Lemma linspace_length (a b : R) (n : nat) : length (linspace a b n) = n.
Proof. rewrite linspace_tab. apply tab_length. Qed.

(** With at least two samples the last one is the upper end. *)
Lemma lin_last (a b : R) (n : nat) : (2 <= n)%nat -> lin a b n (n - 1) = b.
Proof.
  intros Hn. pose proof (INR_pred_pos n Hn). unfold lin. field. lra.
Qed.

Lemma lin_first (a b : R) (n : nat) : lin a b n 0 = a.
Proof. unfold lin. cbn [INR]. unfold Rdiv. ring. Qed.

Lemma meshgrid_tab (n m : nat) (f g : nat -> R) :
  meshgrid (tab n f) (tab m g)
  = (tab2 m n (fun _ j => f j), tab2 m n (fun i _ => g i)).
Proof.
  unfold meshgrid, tab2. rewrite !map_tab. f_equal.
  apply tab_ext; intros i _. rewrite map_tab. reflexivity.
Qed.

Lemma grad_at_ext (f g : nat -> R) (len i : nat) :
  (2 <= len)%nat -> (i < len)%nat ->
  (forall k, (k < len)%nat -> f k = g k) ->
  grad_at f len i = grad_at g len i.
Proof.
  intros Hlen Hi H. unfold grad_at.
  destruct (Nat.eqb_spec i 0); [rewrite !H by lia; reflexivity|].
  destruct (Nat.eqb_spec i (len - 1)); rewrite !H by lia; reflexivity.
Qed.

Section GradientTab.
Context {A : Type}.
Variable sub : A -> A -> A.
Variable divs : A -> R -> A.
Variable d : A.

Lemma gradient_tab (dx : R) (n : nat) (f : nat -> A) :
  (2 <= n)%nat ->
  gradient sub divs d dx (tab n f)
  = Some (tab n (fun i =>
      if (i =? 0)%nat then divs (sub (f 1%nat) (f 0%nat)) dx
      else if (i =? n - 1)%nat
           then divs (sub (f (n - 1)%nat) (f (n - 2)%nat)) dx
           else divs (sub (f (i + 1)%nat) (f (i - 1)%nat)) (2 * dx))).
Proof.
  intros Hn. unfold gradient. rewrite tab_length.
  replace (n <? 2)%nat with false by (symmetry; apply Nat.ltb_ge; lia).
  rewrite skipn_tab, firstn_tab, map2_tab by lia.
  rewrite !nth_tab by lia.
  rewrite (tab_ends n) by assumption.
  apply f_equal. apply f_equal2; [reflexivity|].
  apply f_equal2; [|apply f_equal2; [|reflexivity]].
  - apply tab_ext; intros j Hj.
    change (S j =? 0)%nat with false. cbv iota.
    destruct (Nat.eqb_spec (S j) (n - 1)); [lia|].
    replace (S j + 1)%nat with (2 + j)%nat by lia.
    replace (S j - 1)%nat with j by lia. reflexivity.
  - destruct (Nat.eqb_spec (n - 1) 0); [lia|].
    rewrite Nat.eqb_refl. reflexivity.
Qed.

Lemma gradient_short (dx : R) (f : list A) :
  (length f < 2)%nat -> gradient sub divs d dx f = None.
Proof.
  intros H. unfold gradient.
  now replace (length f <? 2)%nat with true by (symmetry; apply Nat.ltb_lt; lia).
Qed.
End GradientTab.

Lemma gradient1_tab (n : nat) (f : nat -> R) :
  (2 <= n)%nat -> gradient1 1 (tab n f) = Some (tab n (grad_at f n)).
Proof.
  intros Hn. unfold gradient1. rewrite gradient_tab by assumption.
  f_equal. apply tab_ext; intros i _. unfold grad_at.
  destruct (i =? 0)%nat; [field|].
  destruct (i =? n - 1)%nat; field.
Qed.

Lemma sequence_map_Some {A : Type} (l : list A) :
  sequence (map Some l) = Some l.
Proof. induction l as [|a l IH]; cbn; [reflexivity | now rewrite IH]. Qed.

Lemma gradient_axis1_tab2 (n m : nat) (f : nat -> nat -> R) :
  (1 <= n)%nat -> (2 <= m)%nat ->
  gradient_axis1 (tab2 n m f)
  = Some (tab2 n m (fun i j => grad_at (f i) m j)).
Proof.
  intros Hn Hm. unfold gradient_axis1.
  assert (Hmap : map (gradient1 1) (tab2 n m f)
                 = map Some (tab2 n m (fun i j => grad_at (f i) m j))).
  { unfold tab2. rewrite !map_tab. apply tab_ext; intros i _.
    now apply gradient1_tab. }
  rewrite Hmap, sequence_map_Some.
  destruct n as [|n]; [lia|]. unfold tab2 at 1. rewrite tab_cons. reflexivity.
Qed.

Lemma gradient_axis0_tab2 (n m : nat) (f : nat -> nat -> R) :
  (2 <= n)%nat ->
  gradient_axis0 (tab2 n m f)
  = Some (tab2 n m (fun i j => grad_at (fun r => f r j) n i)).
Proof.
  intros Hn. unfold gradient_axis0, tab2. rewrite gradient_tab by assumption.
  f_equal. apply tab_ext; intros i _.
  destruct (i =? 0)%nat eqn:E0; [|destruct (i =? n - 1)%nat eqn:E1];
    rewrite map2_tab, map_tab; apply tab_ext; intros j _;
    unfold grad_at; rewrite E0; try rewrite E1; field.
Qed.

Lemma diff_tab (n : nat) (f : nat -> R) :
  diff (tab n f) = tab (n - 1) (fun i => f (S i) - f i).
Proof.
  unfold diff. rewrite skipn_tab, removelast_tab, map2_tab. reflexivity.
Qed.

(* ================================================================== *)
(** ** The instance, entry by entry *)
(* ================================================================== *)

Lemma lin_u (n j : nat) : lin 0 (2 * PI) n j = u_at n j.
Proof. unfold lin, u_at, Rdiv. ring. Qed.

Lemma lin_v (w : R) (n i : nat) : lin (- w / 2) (w / 2) n i = v_at w n i.
Proof.
  unfold lin, v_at. replace (w / 2 - - w / 2) with w by lra. reflexivity.
Qed.

Lemma linspace_u (n : nat) : linspace 0 (2 * PI) n = tab n (u_at n).
Proof. rewrite linspace_tab. apply tab_ext; intros j _. apply lin_u. Qed.

Lemma linspace_v (w : R) (n : nat) :
  linspace (- w / 2) (w / 2) n = tab n (v_at w n).
Proof. rewrite linspace_tab. apply tab_ext; intros j _. apply lin_v. Qed.

Lemma v_at_last (w : R) (n : nat) : (2 <= n)%nat -> v_at w n (n - 1) = w / 2.
Proof. intros Hn. rewrite <- lin_v. now apply lin_last. Qed.

Lemma init_eq (R0 w : R) (n : nat) :
  __init__ R0 w n
  = mkMobiusStrip R0 w n
      (tab2 n n (fun _ j => u_at n j))
      (tab2 n n (fun i _ => v_at w n i))
      (tab2 n n (fun i j => emb_x R0 (v_at w n i) (u_at n j)))
      (tab2 n n (fun i j => emb_y R0 (v_at w n i) (u_at n j)))
      (tab2 n n (fun i j => emb_z (v_at w n i) (u_at n j))).
Proof.
  unfold __init__. rewrite linspace_u, linspace_v, meshgrid_tab.
  cbv beta iota zeta delta [_compute_coordinates bind gets ret fst
                            self_u self_v self_R].
  rewrite !amap_tab2, !amap2_tab2, !amap_tab2, !amap2_tab2. reflexivity.
Qed.

Lemma dA_of_ext (fx fy fz gx gy gz : nat -> nat -> R) (n i j : nat) :
  (2 <= n)%nat -> (i < n)%nat -> (j < n)%nat ->
  (forall a b, (a < n)%nat -> (b < n)%nat -> fx a b = gx a b) ->
  (forall a b, (a < n)%nat -> (b < n)%nat -> fy a b = gy a b) ->
  (forall a b, (a < n)%nat -> (b < n)%nat -> fz a b = gz a b) ->
  dA_of fx fy fz n i j = dA_of gx gy gz n i j.
Proof.
  intros Hn Hi Hj Hx Hy Hz. unfold dA_of.
  rewrite (grad_at_ext (fx i) (gx i)), (grad_at_ext (fy i) (gy i)),
          (grad_at_ext (fz i) (gz i)),
          (grad_at_ext (fun r => fx r j) (fun r => gx r j)),
          (grad_at_ext (fun r => fy r j) (fun r => gy r j)),
          (grad_at_ext (fun r => fz r j) (fun r => gz r j)); auto.
Qed.

Lemma dA_of_nonneg (fx fy fz : nat -> nat -> R) (n i j : nat) :
  0 <= dA_of fx fy fz n i j.
Proof. unfold dA_of. apply sqrt_pos. Qed.

Lemma pydiv_some (a b : R) : b <> 0 -> pydiv a b = Some (a / b).
Proof. intros Hb. unfold pydiv. destruct (Req_dec_T b 0); [contradiction | reflexivity]. Qed.

Lemma INR_minus_1_neq (n : nat) : (2 <= n)%nat -> INR n - 1 <> 0.
Proof.
  intros Hn. rewrite INR_minus_1 by lia.
  pose proof (INR_pred_pos n Hn). lra.
Qed.

(** [surface_area] on an instance whose grids are [n] by [n] tables. *)
Lemma surface_area_tab (s : MobiusStrip) (n : nat) (fx fy fz : nat -> nat -> R) :
  (2 <= n)%nat -> self_n s = n ->
  self_x s = tab2 n n fx -> self_y s = tab2 n n fy -> self_z s = tab2 n n fz ->
  surface_area s
  = (Some (bigsum n (fun i => bigsum n (fun j => dA_of fx fy fz n i j))
           * (2 * PI / (INR n - 1)) * (self_w s / (INR n - 1))), s).
Proof.
  intros Hn Hsn Hx Hy Hz.
  pose proof (INR_minus_1_neq n Hn) as Hne.
  cbv beta iota zeta delta [surface_area bind gets ret lift].
  rewrite Hsn, Hx, Hy, Hz, !pydiv_some by assumption.
  rewrite !gradient_axis1_tab2, !gradient_axis0_tab2 by lia.
  rewrite !amap2_tab2, !amap_tab2, !amap2_tab2, !amap_tab2, asum_tab2.
  reflexivity.
Qed.

(** The boundary samples of [edge_length]: coordinate [j] of each sequence. *)
Lemma edge_samples_eq (s : MobiusStrip) :
  edge_samples s
  = (Some (tab (self_n s)
             (fun j => emb_x (self_R s) (self_w s / 2) (u_at (self_n s) j)),
           tab (self_n s)
             (fun j => emb_y (self_R s) (self_w s / 2) (u_at (self_n s) j)),
           tab (self_n s)
             (fun j => emb_z (self_w s / 2) (u_at (self_n s) j))), s).
Proof.
  cbv beta iota zeta delta [edge_samples bind gets ret].
  rewrite linspace_u, !map_tab, !map2_tab. reflexivity.
Qed.

Lemma edge_chords_eq (s : MobiusStrip) :
  edge_chords s
  = (Some (tab (self_n s - 1)
             (chord_of
                (fun j => emb_x (self_R s) (self_w s / 2) (u_at (self_n s) j))
                (fun j => emb_y (self_R s) (self_w s / 2) (u_at (self_n s) j))
                (fun j => emb_z (self_w s / 2) (u_at (self_n s) j)))), s).
Proof.
  unfold edge_chords, bind. rewrite edge_samples_eq.
  cbv beta iota zeta delta [ret].
  rewrite !diff_tab, !map_tab, !map2_tab, map_tab. reflexivity.
Qed.

Lemma edge_length_eq (s : MobiusStrip) :
  edge_length s
  = (Some (2 * bigsum (self_n s - 1)
             (chord_of
                (fun j => emb_x (self_R s) (self_w s / 2) (u_at (self_n s) j))
                (fun j => emb_y (self_R s) (self_w s / 2) (u_at (self_n s) j))
                (fun j => emb_z (self_w s / 2) (u_at (self_n s) j)))), s).
Proof.
  unfold edge_length, bind. rewrite edge_chords_eq. reflexivity.
Qed.

(* ================================================================== *)
(** ** Read-only methods *)
(* ================================================================== *)

Lemma read_only_ret {A : Type} (a : A) : read_only (ret a).
Proof. intros s. reflexivity. Qed.

Lemma read_only_gets {A : Type} (f : MobiusStrip -> A) : read_only (gets f).
Proof. intros s. reflexivity. Qed.

Lemma read_only_lift {A : Type} (o : option A) : read_only (lift o).
Proof. intros s. reflexivity. Qed.

Lemma read_only_bind {A B : Type} (m : M A) (k : A -> M B) :
  read_only m -> (forall a, read_only (k a)) -> read_only (bind m k).
Proof.
  intros Hm Hk s. unfold bind. specialize (Hm s).
  destruct (m s) as [[a|] s']; cbn in Hm; subst s'; [apply Hk | reflexivity].
Qed.

Create HintDb readonly.
#[local] Hint Resolve read_only_ret read_only_gets read_only_lift : readonly.

Ltac read_only_steps :=
  repeat (apply read_only_bind; [auto with readonly | intros ?]);
  auto with readonly.

Lemma surface_area_read_only : read_only surface_area.
Proof. unfold surface_area. read_only_steps. Qed.

Lemma edge_samples_read_only : read_only edge_samples.
Proof. unfold edge_samples. read_only_steps. Qed.

Lemma edge_chords_read_only : read_only edge_chords.
Proof.
  unfold edge_chords. apply read_only_bind; [apply edge_samples_read_only|].
  intros [[x y] z]. apply read_only_ret.
Qed.

Lemma edge_length_read_only : read_only edge_length.
Proof.
  unfold edge_length. apply read_only_bind; [apply edge_chords_read_only|].
  intros ds. apply read_only_ret.
Qed.

(* ================================================================== *)
(** ** The formulas of the two estimators *)
(* ================================================================== *)

(** C4.  Every entry of the cached grids is the embedding of its parameter
    pair: the angle grid holds [2 pi j / (n - 1)] down column [j], the width
    grid holds [- w / 2 + i w / (n - 1)] along row [i], and [x], [y], [z]
    are the three embedding formulas at these two values. *)
Theorem C4_grid_entries (R0 w : R) (n i j : nat) :
  (i < n)%nat -> (j < n)%nat ->
  let s := __init__ R0 w n in
  let u := 2 * PI * INR j / INR (n - 1) in
  let v := - w / 2 + INR i * w / INR (n - 1) in
  get2 (self_u s) i j = u /\
  get2 (self_v s) i j = v /\
  get2 (self_x s) i j = (R0 + v * cos (u / 2)) * cos u /\
  get2 (self_y s) i j = (R0 + v * cos (u / 2)) * sin u /\
  get2 (self_z s) i j = v * sin (u / 2).
Proof.
  intros Hi Hj. cbv zeta. rewrite init_eq. cbn [self_u self_v self_x self_y self_z].
  rewrite !get2_tab2 by assumption. repeat split; reflexivity.
Qed.

Lemma C4_grid_entries_witness :
  (1 < 2)%nat /\ (1 < 2)%nat /\
  let s := __init__ 1 (1 / 2) 2 in
  let u := 2 * PI * INR 1 / INR (2 - 1) in
  let v := - (1 / 2) / 2 + INR 1 * (1 / 2) / INR (2 - 1) in
  get2 (self_u s) 1 1 = u /\
  get2 (self_v s) 1 1 = v /\
  get2 (self_x s) 1 1 = (1 + v * cos (u / 2)) * cos u /\
  get2 (self_y s) 1 1 = (1 + v * cos (u / 2)) * sin u /\
  get2 (self_z s) 1 1 = v * sin (u / 2).
Proof.
  split; [lia|]. split; [lia|]. apply (C4_grid_entries 1 (1 / 2) 2 1 1); lia.
Defined.

(** The end samples of both axes are the ends of the intervals: angle [0]
    and [2 pi], offsets [- w / 2] and [w / 2]. *)
Lemma u_at_0 (n : nat) : u_at n 0 = 0.
Proof. unfold u_at. cbn [INR]. unfold Rdiv. ring. Qed.

Lemma u_at_last (n : nat) : (2 <= n)%nat -> u_at n (n - 1) = 2 * PI.
Proof.
  intros Hn. pose proof (INR_pred_pos n Hn). unfold u_at. field. lra.
Qed.

Lemma v_at_0 (w : R) (n : nat) : v_at w n 0 = - w / 2.
Proof. unfold v_at. cbn [INR]. unfold Rdiv. ring. Qed.

(** The grids of a constructed instance, read through [get2]. *)
Lemma init_get2 (R0 w : R) (n i j : nat) :
  (i < n)%nat -> (j < n)%nat ->
  get2 (self_x (__init__ R0 w n)) i j = emb_x R0 (v_at w n i) (u_at n j) /\
  get2 (self_y (__init__ R0 w n)) i j = emb_y R0 (v_at w n i) (u_at n j) /\
  get2 (self_z (__init__ R0 w n)) i j = emb_z (v_at w n i) (u_at n j).
Proof.
  intros Hi Hj. rewrite init_eq. cbn [self_x self_y self_z].
  rewrite !get2_tab2 by assumption. repeat split.
Qed.

Lemma surface_area_init (R0 w : R) (n : nat) :
  (2 <= n)%nat ->
  surface_area (__init__ R0 w n) = (Some (area_value R0 w n), __init__ R0 w n).
Proof.
  intros Hn.
  rewrite (surface_area_tab (__init__ R0 w n) n
             (fun a b => emb_x R0 (v_at w n a) (u_at n b))
             (fun a b => emb_y R0 (v_at w n a) (u_at n b))
             (fun a b => emb_z (v_at w n a) (u_at n b)));
    try assumption; try (rewrite init_eq; reflexivity).
  unfold area_value. rewrite INR_minus_1 by lia.
  rewrite init_eq at 1. reflexivity.
Qed.

(** Below two samples per axis the method raises. *)
Lemma surface_area_small (R0 w : R) (n : nat) :
  (n < 2)%nat -> fst (surface_area (__init__ R0 w n)) = None.
Proof.
  intros Hn. rewrite init_eq.
  destruct n as [|[|n]]; try lia.
  - cbv beta iota zeta delta [surface_area bind gets ret lift fst
      self_n self_w self_x self_y self_z].
    unfold pydiv. destruct (Req_dec_T (INR 0 - 1) 0) as [H|H]; [reflexivity|].
    destruct (Req_dec_T (INR 0 - 1) 0); reflexivity.
  - cbv beta iota zeta delta [surface_area bind gets ret lift fst
      self_n self_w self_x self_y self_z].
    unfold pydiv. destruct (Req_dec_T (INR 1 - 1) 0) as [H|H]; [reflexivity|].
    exfalso. apply H. cbn. lra.
Qed.

(** C3.  On every instance with [n >= 2], [surface_area] returns the sum of
    all area elements [dA[i][j]] times [du = 2 pi / (n - 1)] and
    [dv = w / (n - 1)], where [dA[i][j]] is the norm of the cross product of
    the two tangent fields and the six derivative arrays follow the gradient
    scheme in index space (central inside, one-sided at both ends, unit
    spacing), the [u]-derivative along the columns and the [v]-derivative
    along the rows of the cached grids. *)
Theorem C3_surface_area_formula (R0 w : R) (n : nat) :
  (2 <= n)%nat ->
  fst (surface_area (__init__ R0 w n))
  = Some (spec_surface_area (__init__ R0 w n)).
Proof.
  intros Hn. rewrite surface_area_init by assumption. cbn [fst].
  f_equal. unfold spec_surface_area, area_value.
  replace (self_n (__init__ R0 w n)) with n by (rewrite init_eq; reflexivity).
  replace (self_w (__init__ R0 w n)) with w by (rewrite init_eq; reflexivity).
  cbv zeta. f_equal. f_equal.
  rewrite bigsum_sigma. apply sigma_ext; intros i Hi.
  rewrite bigsum_sigma. apply sigma_ext; intros j Hj.
  apply dA_of_ext; try assumption; intros a b Ha Hb;
    destruct (init_get2 R0 w n a b Ha Hb) as (Hx & Hy & Hz); congruence.
Qed.

Lemma C3_surface_area_formula_witness :
  (2 <= 3)%nat /\
  fst (surface_area (__init__ 1 (1 / 2) 3))
  = Some (spec_surface_area (__init__ 1 (1 / 2) 3)).
Proof.
  split; [lia|]. apply (C3_surface_area_formula 1 (1 / 2) 3). lia.
Defined.

(** C5.  On every instance [edge_length] returns twice the sum over
    [i = 0 .. n - 2] of [sqrt (dx[i]^2 + dy[i]^2 + dz[i]^2)], the first
    differences being those of the embedding at [v = w / 2] on the [n]
    angle samples [2 pi j / (n - 1)]. *)
Theorem C5_edge_length_formula (s : MobiusStrip) :
  fst (edge_length s)
  = Some (spec_edge_length (self_R s) (self_w s) (self_n s)).
Proof.
  unfold edge_length, bind. rewrite edge_chords_eq.
  cbv beta iota delta [ret fst]. f_equal.
  change (vsum (tab (self_n s - 1) ?f)) with (bigsum (self_n s - 1) f).
  rewrite bigsum_sigma. reflexivity.
Qed.

(** C8.  Both estimators are read-only and deterministic: a call returns the
    instance it was given, field for field, and a second call on the
    instance left by the first returns the same result. *)
Theorem C8_methods_pure (s : MobiusStrip) :
  snd (surface_area s) = s /\
  snd (edge_length s) = s /\
  fst (surface_area (snd (surface_area s))) = fst (surface_area s) /\
  fst (edge_length (snd (edge_length s))) = fst (edge_length s) /\
  fst (surface_area (snd (edge_length s))) = fst (surface_area s) /\
  fst (edge_length (snd (surface_area s))) = fst (edge_length s).
Proof.
  rewrite (surface_area_read_only s), (edge_length_read_only s).
  repeat split; reflexivity.
Qed.



(* ================================================================== *)
(** ** Real-number facts used by the estimates *)
(* ================================================================== *)

(** Two decimals of [PI], from the Machin-like series of the library. *)
Lemma PI_bounds : 314 / 100 < PI < 315 / 100.
Proof.
  pose proof (PI_2_3_7_ineq 1) as [Hlo Hhi].
  unfold sum_f_R0, tg_alt, PI_2_3_7_tg, Ratan_seq in Hlo, Hhi.
  cbn [Nat.mul Nat.add INR pow] in Hlo, Hhi.
  split; lra.
Qed.

Lemma sin_le_x (x : R) : 0 <= x -> sin x <= x.
Proof.
  intros [Hx| <-]; [left; now apply sin_lt_x | rewrite sin_0; lra].
Qed.

(** The cubic lower bound of the sine on [[0, PI]]. *)
Lemma sin_ge_cubic (x : R) : 0 <= x -> x <= PI -> x - x ^ 3 / 6 <= sin x.
Proof.
  intros H0 Hpi. pose proof PI_bounds as HPI.
  destruct (SIN x H0 Hpi) as [Hlb _].
  eapply Rle_trans; [|exact Hlb].
  unfold sin_lb, sin_approx, sin_term, sum_f_R0.
  cbn [Nat.mul Nat.add fact INR pow].
  assert (Hx2 : 0 <= x * x <= 16) by nra.
  assert (Hx5 : 0 <= x * x * x * x * x).
  { apply Rmult_le_pos; [|assumption].
    replace (x * x * x * x) with ((x * x) * (x * x)) by ring. nra. }
  replace ((1 + 1 + 1) * (1 + 1)) with 6 by lra.
  replace ((1 + 1 + 1 + 1 + 1) * ((1 + 1 + 1 + 1) * ((1 + 1 + 1) * (1 + 1))))
    with 120 by lra.
  replace ((1 + 1 + 1 + 1 + 1 + 1 + 1) *
           ((1 + 1 + 1 + 1 + 1 + 1) * 120)) with 5040 by lra.
  assert (Hkey : x * x * x * x * x * (x * x) <= 16 * (x * x * x * x * x))
    by nra.
  nra.
Qed.

Lemma sqrt_sum_sq_le (a b : R) : 0 <= a -> 0 <= b -> sqrt (a ^ 2 + b ^ 2) <= a + b.
Proof.
  intros Ha Hb. rewrite <- (sqrt_pow2 (a + b)) by lra.
  apply sqrt_le_1_alt. nra.
Qed.

Lemma sqrt_le_bound (t b : R) : 0 <= b -> t <= b ^ 2 -> sqrt t <= b.
Proof.
  intros Hb Ht. rewrite <- (sqrt_pow2 b) by assumption.
  now apply sqrt_le_1_alt.
Qed.

Lemma sqrt_ge_bound (t b : R) : 0 <= b -> b ^ 2 <= t -> b <= sqrt t.
Proof.
  intros Hb Ht. rewrite <- (sqrt_pow2 b) at 1 by assumption.
  now apply sqrt_le_1_alt.
Qed.

Lemma sqrt_scale_sq (k t : R) : 0 <= k -> sqrt (k ^ 2 * t) = k * sqrt t.
Proof.
  intros Hk. rewrite sqrt_mult_alt by nra. now rewrite sqrt_pow2.
Qed.

(** The squared chord between two boundary points at angles [u] and [u']
    of the curve at offset [v]. *)
Lemma chord_sq (R0 v u u' : R) :
  (emb_x R0 v u' - emb_x R0 v u) ^ 2 + (emb_y R0 v u' - emb_y R0 v u) ^ 2
  + (emb_z v u' - emb_z v u) ^ 2
  = 4 * v ^ 2 * sin ((u' - u) / 4) ^ 2
    + 4 * (R0 + v * cos (u / 2)) * (R0 + v * cos (u' / 2))
      * sin ((u' - u) / 2) ^ 2.
Proof.
  unfold emb_x, emb_y, emb_z.
  assert (Hd : sin ((u' - u) / 2) ^ 2 = (1 - cos (u' - u)) / 2).
  { replace (u' - u) with (2 * ((u' - u) / 2)) at 2 by field.
    rewrite cos_2a_sin. field. }
  assert (Hh : sin ((u' - u) / 4) ^ 2 = (1 - cos (u' / 2 - u / 2)) / 2).
  { replace (u' / 2 - u / 2) with (2 * ((u' - u) / 4)) by field.
    rewrite cos_2a_sin. field. }
  rewrite Hd, Hh, !cos_minus.
  pose proof (sin2_cos2 u) as H1. pose proof (sin2_cos2 u') as H2.
  pose proof (sin2_cos2 (u / 2)) as H3.
  pose proof (sin2_cos2 (u' / 2)) as H4.
  unfold Rsqr in H1, H2, H3, H4.
  set (cu := cos u) in *. set (su := sin u) in *.
  set (cu' := cos u') in *. set (su' := sin u') in *.
  set (ca := cos (u / 2)) in *. set (sa := sin (u / 2)) in *.
  set (ca' := cos (u' / 2)) in *. set (sa' := sin (u' / 2)) in *.
  assert (E1 : su * su = 1 - cu * cu) by lra.
  assert (E2 : su' * su' = 1 - cu' * cu') by lra.
  assert (E3 : sa * sa = 1 - ca * ca) by lra.
  assert (E4 : sa' * sa' = 1 - ca' * ca') by lra.
  transitivity
    ((R0 + v * ca') ^ 2 * (cu' * cu' + su' * su')
     + (R0 + v * ca) ^ 2 * (cu * cu + su * su)
     - 2 * (R0 + v * ca) * (R0 + v * ca') * (cu' * cu + su' * su)
     + v ^ 2 * (sa' * sa' + sa * sa - 2 * sa' * sa)); [ring|].
  rewrite E1, E2, E3, E4. field.
Qed.

(** The embedding at the two ends of the angle interval. *)
Lemma emb_at_0 (R0 v : R) :
  emb_x R0 v 0 = R0 + v /\ emb_y R0 v 0 = 0 /\ emb_z v 0 = 0.
Proof.
  unfold emb_x, emb_y, emb_z. replace (0 / 2) with 0 by field.
  rewrite cos_0, sin_0. repeat split; ring.
Qed.

Lemma emb_at_2PI (R0 v : R) :
  emb_x R0 v (2 * PI) = R0 - v /\ emb_y R0 v (2 * PI) = 0 /\
  emb_z v (2 * PI) = 0.
Proof.
  unfold emb_x, emb_y, emb_z. replace (2 * PI / 2) with PI by field.
  rewrite cos_PI, sin_PI, cos_2PI, sin_2PI. repeat split; ring.
Qed.

(* ================================================================== *)
(** ** The boundary polygon *)
(* ================================================================== *)

Lemma edge_length_value (s : MobiusStrip) :
  edge_length s = (Some (edge_value (self_R s) (self_w s) (self_n s)), s).
Proof. rewrite edge_length_eq. reflexivity. Qed.

Lemma edge_length_init (R0 w : R) (n : nat) :
  edge_length (__init__ R0 w n) = (Some (edge_value R0 w n), __init__ R0 w n).
Proof. rewrite edge_length_value, init_eq. reflexivity. Qed.

Section Boundary.
Variables (R0 v : R) (n : nat).
Hypothesis Hn : (2 <= n)%nat.

Let m : R := INR (n - 1).

Lemma m_pos : 0 < m.
Proof. apply INR_pred_pos, Hn. Qed.

Lemma m_ge_1 : 1 <= m.
Proof. unfold m. change 1 with (INR 1). apply le_INR. lia. Qed.

Lemma u_step (i : nat) : u_at n (S i) - u_at n i = 2 * PI / m.
Proof.
  pose proof m_pos. unfold u_at. rewrite S_INR. fold m. field. lra.
Qed.

Lemma half_angle (i : nat) : u_at n i / 2 = PI * INR i / m.
Proof. pose proof m_pos. unfold u_at. fold m. field. lra. Qed.

Lemma half_angle_range (i : nat) :
  (i <= n - 1)%nat -> 0 <= u_at n i / 2 <= PI.
Proof.
  intros Hi. pose proof m_pos as Hm. pose proof PI_RGT_0 as Hpi.
  rewrite half_angle.
  assert (H0 : 0 <= INR i) by apply pos_INR.
  assert (H1 : INR i <= m) by (unfold m; now apply le_INR).
  split.
  - apply Rmult_le_pos; [nra | left; now apply Rinv_0_lt_compat].
  - apply (Rmult_le_reg_r m); [assumption|].
    unfold Rdiv. rewrite Rmult_assoc, Rinv_l by lra. nra.
Qed.

(** The half step [PI / m] lies in [(0, PI]], so its sine is not negative. *)
Lemma half_step_range : 0 < PI / m <= PI.
Proof.
  pose proof m_pos as Hm. pose proof m_ge_1 as Hm1.
  pose proof PI_RGT_0 as Hpi. split.
  - now apply Rdiv_lt_0_compat.
  - apply (Rmult_le_reg_r m); [assumption|].
    unfold Rdiv. rewrite Rmult_assoc, Rinv_l by lra. nra.
Qed.

Lemma sin_half_step_nonneg : 0 <= sin (PI / m).
Proof. destruct half_step_range. apply sin_ge_0; lra. Qed.

Lemma sin_quarter_step_range : 0 <= sin (PI / (2 * m)) <= 1.
Proof.
  destruct half_step_range as [H1 H2]. pose proof m_pos.
  assert (E : PI / (2 * m) = PI / m / 2) by (field; lra).
  split; [apply sin_ge_0; rewrite E; lra | apply SIN_bound].
Qed.

Lemma rho_bounds (i : nat) : 0 <= v -> R0 - v <= rho R0 v n i <= R0 + v.
Proof.
  intros Hv. unfold rho. pose proof (COS_bound (u_at n i / 2)). nra.
Qed.

Lemma rho_decr (i : nat) :
  0 <= v -> (i < n - 1)%nat -> rho R0 v n (S i) <= rho R0 v n i.
Proof.
  intros Hv Hi. unfold rho.
  assert (cos (u_at n (S i) / 2) <= cos (u_at n i / 2)).
  { destruct (half_angle_range i) as [A1 A2]; [lia|].
    destruct (half_angle_range (S i)) as [B1 B2]; [lia|].
    apply cos_decr_1; try assumption.
    pose proof (u_step i). destruct half_step_range. 
    assert (0 < 2 * PI / m) by (unfold Rdiv in *; lra). lra. }
  nra.
Qed.

(** The squared chord: a part from the half twist, a part from the
    rotation about the axis. *)
Lemma boundary_chord_sq (i : nat) :
  boundary_chord R0 v n i
  = sqrt (4 * v ^ 2 * sin (PI / (2 * m)) ^ 2
          + 4 * rho R0 v n i * rho R0 v n (S i) * sin (PI / m) ^ 2).
Proof.
  pose proof m_pos. unfold boundary_chord, chord_of. rewrite chord_sq.
  rewrite u_step. unfold rho.
  replace (2 * PI / m / 4) with (PI / (2 * m)) by (field; lra).
  replace (2 * PI / m / 2) with (PI / m) by (field; lra).
  reflexivity.
Qed.

Lemma boundary_chord_lower (i : nat) :
  0 <= v -> v <= R0 -> (i < n - 1)%nat ->
  2 * rho R0 v n (S i) * sin (PI / m) <= boundary_chord R0 v n i.
Proof.
  intros Hv HvR Hi. rewrite boundary_chord_sq.
  pose proof sin_half_step_nonneg as Hs.
  pose proof (rho_bounds i Hv) as [Hr1 _].
  pose proof (rho_bounds (S i) Hv) as [Hr2 _].
  pose proof (rho_decr i Hv Hi) as Hd.
  set (r := rho R0 v n i) in *. set (r' := rho R0 v n (S i)) in *.
  set (s := sin (PI / m)) in *. set (a := sin (PI / (2 * m))).
  apply sqrt_ge_bound.
  - apply Rmult_le_pos; [nra | assumption].
  - assert (0 <= v ^ 2 * a ^ 2) by (apply Rmult_le_pos; apply pow2_ge_0).
    assert (0 <= (r - r') * r' * s ^ 2).
    { apply Rmult_le_pos; [nra | apply pow2_ge_0]. }
    nra.
Qed.

(** An upper bound with a slack [c] that pays for the half-twist part. *)
Lemma boundary_chord_upper (c : R) (i : nat) :
  0 <= v -> v <= R0 -> (i < n - 1)%nat -> 0 <= c ->
  4 * v ^ 2 * sin (PI / (2 * m)) ^ 2 <= 4 * (R0 - v) * sin (PI / m) * c ->
  boundary_chord R0 v n i <= 2 * rho R0 v n i * sin (PI / m) + c.
Proof.
  intros Hv HvR Hi Hc Hslack. rewrite boundary_chord_sq.
  pose proof sin_half_step_nonneg as Hs.
  pose proof (rho_bounds i Hv) as [Hr1 _].
  pose proof (rho_bounds (S i) Hv) as [Hr2 _].
  pose proof (rho_decr i Hv Hi) as Hd.
  set (r := rho R0 v n i) in *. set (r' := rho R0 v n (S i)) in *.
  set (s := sin (PI / m)) in *. set (a := sin (PI / (2 * m))) in *.
  apply sqrt_le_bound.
  - assert (0 <= r * s) by (apply Rmult_le_pos; lra). lra.
  - assert (0 <= (r - r') * r * s ^ 2).
    { apply Rmult_le_pos; [nra | apply pow2_ge_0]. }
    assert (0 <= (r - (R0 - v)) * (s * c)).
    { apply Rmult_le_pos; [lra | now apply Rmult_le_pos]. }
    nra.
Qed.

(** The plain upper bound. *)
Lemma boundary_chord_upper_plain (i : nat) :
  0 <= v -> v <= R0 -> (i < n - 1)%nat ->
  boundary_chord R0 v n i <= 2 * rho R0 v n i * sin (PI / m) + 2 * v.
Proof.
  intros Hv HvR Hi. rewrite boundary_chord_sq.
  pose proof sin_half_step_nonneg as Hs.
  pose proof sin_quarter_step_range as [Ha0 Ha1].
  pose proof (rho_bounds i Hv) as [Hr1 _].
  pose proof (rho_bounds (S i) Hv) as [Hr2 _].
  pose proof (rho_decr i Hv Hi) as Hd.
  set (r := rho R0 v n i) in *. set (r' := rho R0 v n (S i)) in *.
  set (s := sin (PI / m)) in *. set (a := sin (PI / (2 * m))) in *.
  apply sqrt_le_bound.
  - assert (0 <= r * s) by (apply Rmult_le_pos; lra). lra.
  - assert (0 <= (r - r') * r * s ^ 2).
    { apply Rmult_le_pos; [nra | apply pow2_ge_0]. }
    assert (0 <= r * s) by (apply Rmult_le_pos; lra).
    assert (v ^ 2 * a ^ 2 <= v ^ 2).
    { assert (a ^ 2 <= 1) by nra. assert (0 <= v ^ 2) by apply pow2_ge_0. nra. }
    nra.
Qed.

(** The cosines of the half angles cancel in pairs. *)
Lemma cos_half_sum : bigsum n (fun j => cos (u_at n j / 2)) = 0.
Proof.
  pose proof m_pos as Hm.
  assert (H : bigsum n (fun j => cos (u_at n j / 2))
              = bigsum n (fun j => -1 * cos (u_at n j / 2))).
  { rewrite bigsum_rev at 1.
    apply bigsum_ext; intros j Hj.
    rewrite !half_angle.
    replace (PI * INR (n - 1 - j) / m) with (PI - PI * INR j / m).
    - rewrite Rtrigo_facts.cos_pi_minus. ring.
    - rewrite minus_INR by lia. fold m. field. lra. }
  rewrite bigsum_scal in H. lra.
Qed.

Lemma rho_sum_tail :
  bigsum (n - 1) (fun i => rho R0 v n (S i)) = m * R0 - v.
Proof.
  pose proof cos_half_sum as Hc.
  replace n with (S (n - 1)) in Hc at 1 by lia.
  rewrite bigsum_cons in Hc.
  rewrite u_at_0 in Hc. replace (0 / 2) with 0 in Hc by field.
  rewrite cos_0 in Hc.
  unfold rho.
  rewrite bigsum_plus, bigsum_const, bigsum_scal. fold m. nra.
Qed.

Lemma rho_sum_head :
  bigsum (n - 1) (fun i => rho R0 v n i) = m * R0 + v.
Proof.
  pose proof cos_half_sum as Hc.
  replace n with (S (n - 1)) in Hc at 1 by lia.
  rewrite bigsum_S in Hc.
  rewrite (u_at_last n Hn) in Hc.
  replace (2 * PI / 2) with PI in Hc by field.
  rewrite cos_PI in Hc.
  unfold rho.
  rewrite bigsum_plus, bigsum_const, bigsum_scal. fold m. nra.
Qed.

(** The polygon is at least as long as the one through the inner ends of
    the chords. *)
Lemma chord_sum_lower :
  0 <= v -> v <= R0 ->
  2 * sin (PI / m) * (m * R0 - v) <= bigsum (n - 1) (boundary_chord R0 v n).
Proof.
  intros Hv HvR. rewrite <- rho_sum_tail, <- bigsum_scal.
  apply bigsum_le; intros i Hi.
  pose proof (boundary_chord_lower i Hv HvR Hi). lra.
Qed.

Lemma chord_sum_upper (c : R) :
  0 <= v -> v <= R0 -> 0 <= c ->
  4 * v ^ 2 * sin (PI / (2 * m)) ^ 2 <= 4 * (R0 - v) * sin (PI / m) * c ->
  bigsum (n - 1) (boundary_chord R0 v n)
  <= 2 * sin (PI / m) * (m * R0 + v) + m * c.
Proof.
  intros Hv HvR Hc Hslack.
  rewrite <- rho_sum_head, <- bigsum_scal.
  replace (m * c) with (bigsum (n - 1) (fun _ => c))
    by (rewrite bigsum_const; reflexivity).
  rewrite <- bigsum_plus.
  apply bigsum_le; intros i Hi.
  pose proof (boundary_chord_upper c i Hv HvR Hi Hc Hslack). lra.
Qed.

Lemma chord_sum_upper_plain :
  0 <= v -> v <= R0 ->
  bigsum (n - 1) (boundary_chord R0 v n)
  <= 2 * sin (PI / m) * (m * R0 + v) + m * (2 * v).
Proof.
  intros Hv HvR.
  rewrite <- rho_sum_head, <- bigsum_scal.
  replace (m * (2 * v)) with (bigsum (n - 1) (fun _ => 2 * v))
    by (rewrite bigsum_const; reflexivity).
  rewrite <- bigsum_plus.
  apply bigsum_le; intros i Hi.
  pose proof (boundary_chord_upper_plain i Hv HvR Hi). lra.
Qed.
End Boundary.

(* ================================================================== *)
(** ** The area elements *)
(* ================================================================== *)

Lemma Rabs_le_between (a b : R) : Rabs a <= b -> - b <= a <= b.
Proof. unfold Rabs. destruct (Rcase_abs a); lra. Qed.

Lemma grad_at_bound (f : nat -> R) (len i : nat) (M : R) :
  (2 <= len)%nat -> (i < len)%nat ->
  (forall k, (k < len)%nat -> Rabs (f k) <= M) ->
  Rabs (grad_at f len i) <= 2 * M.
Proof.
  intros Hlen Hi HM. unfold grad_at.
  assert (Hd : forall a b, (a < len)%nat -> (b < len)%nat ->
                           Rabs (f a - f b) <= 2 * M).
  { intros a b Ha Hb. pose proof (HM a Ha). pose proof (HM b Hb).
    unfold Rminus. eapply Rle_trans; [apply Rabs_triang|].
    rewrite Rabs_Ropp. lra. }
  destruct (Nat.eqb_spec i 0); [apply Hd; lia|].
  destruct (Nat.eqb_spec i (len - 1)); [apply Hd; lia|].
  assert (H := Hd (i + 1)%nat (i - 1)%nat ltac:(lia) ltac:(lia)).
  assert (0 <= M) by (pose proof (HM i Hi); pose proof (Rabs_pos (f i)); lra).
  unfold Rdiv. rewrite Rabs_mult, (Rabs_pos_eq (/ 2)) by lra. lra.
Qed.

Lemma grad_at_scal (k : R) (f : nat -> R) (len i : nat) :
  grad_at (fun r => k * f r) len i = k * grad_at f len i.
Proof.
  unfold grad_at. destruct (i =? 0)%nat; [ring|].
  destruct (i =? len - 1)%nat; [ring | field].
Qed.

Lemma v_at_step (w : R) (n i : nat) :
  (2 <= n)%nat -> v_at w n (S i) - v_at w n i = w / INR (n - 1).
Proof.
  intros Hn. pose proof (INR_pred_pos n Hn).
  unfold v_at. rewrite S_INR. field. lra.
Qed.

(** Along the rows every coordinate is affine in the offset, so its gradient
    is the same at the ends and inside: slope times the row spacing. *)
Lemma grad_at_affine (a b w : R) (n i : nat) :
  (2 <= n)%nat -> (i < n)%nat ->
  grad_at (fun r => a * v_at w n r + b) n i = a * (w / INR (n - 1)).
Proof.
  intros Hn Hi. unfold grad_at.
  destruct (Nat.eqb_spec i 0) as [->|H0].
  - pose proof (v_at_step w n 0 Hn). nra.
  - destruct (Nat.eqb_spec i (n - 1)) as [->|H1].
    + pose proof (v_at_step w n (n - 2) Hn) as E.
      replace (S (n - 2)) with (n - 1)%nat in E by lia. nra.
    + pose proof (v_at_step w n i Hn) as E1.
      pose proof (v_at_step w n (i - 1) Hn) as E2.
      replace (S (i - 1)) with i in E2 by lia.
      replace (i + 1)%nat with (S i) by lia. nra.
Qed.

Lemma v_at_range (w : R) (n i : nat) :
  (2 <= n)%nat -> (i < n)%nat -> 0 <= w -> Rabs (v_at w n i) <= w / 2.
Proof.
  intros Hn Hi Hw. pose proof (INR_pred_pos n Hn) as Hm.
  assert (H0 : 0 <= INR i) by apply pos_INR.
  assert (H1 : INR i <= INR (n - 1)) by (apply le_INR; lia).
  unfold v_at.
  assert (Hq : 0 <= INR i * w / INR (n - 1) <= w).
  { split.
    - apply Rmult_le_pos; [nra | left; now apply Rinv_0_lt_compat].
    - apply (Rmult_le_reg_r (INR (n - 1))); [assumption|].
      unfold Rdiv. rewrite Rmult_assoc, Rinv_l by lra. nra. }
  apply Rabs_le. lra.
Qed.

Section AreaElement.
Variables (R0 w : R) (n : nat).
Hypothesis Hn : (2 <= n)%nat.

Let fx := fun a b : nat => emb_x R0 (v_at w n a) (u_at n b).
Let fy := fun a b : nat => emb_y R0 (v_at w n a) (u_at n b).
Let fz := fun a b : nat => emb_z (v_at w n a) (u_at n b).
Let dv : R := w / INR (n - 1).

Lemma grad_v_x (i j : nat) :
  (i < n)%nat ->
  grad_at (fun r => fx r j) n i = cos (u_at n j / 2) * cos (u_at n j) * dv.
Proof.
  intros Hi.
  rewrite (grad_at_ext _
    (fun r => cos (u_at n j / 2) * cos (u_at n j) * v_at w n r
              + R0 * cos (u_at n j))); try assumption.
  - now apply grad_at_affine.
  - intros k _. unfold fx, emb_x. ring.
Qed.

Lemma grad_v_y (i j : nat) :
  (i < n)%nat ->
  grad_at (fun r => fy r j) n i = cos (u_at n j / 2) * sin (u_at n j) * dv.
Proof.
  intros Hi.
  rewrite (grad_at_ext _
    (fun r => cos (u_at n j / 2) * sin (u_at n j) * v_at w n r
              + R0 * sin (u_at n j))); try assumption.
  - now apply grad_at_affine.
  - intros k _. unfold fy, emb_y. ring.
Qed.

Lemma grad_v_z (i j : nat) :
  (i < n)%nat ->
  grad_at (fun r => fz r j) n i = sin (u_at n j / 2) * dv.
Proof.
  intros Hi.
  rewrite (grad_at_ext _ (fun r => sin (u_at n j / 2) * v_at w n r + 0));
    try assumption.
  - now apply grad_at_affine.
  - intros k _. unfold fz, emb_z. ring.
Qed.

Hypothesis HR : 0 <= R0.
Hypothesis Hw : 0 <= w.

Lemma dv_nonneg : 0 <= dv.
Proof.
  pose proof (INR_pred_pos n Hn). unfold dv.
  apply Rmult_le_pos; [assumption | left; now apply Rinv_0_lt_compat].
Qed.

Lemma coord_bound (i j : nat) :
  (i < n)%nat ->
  Rabs (fx i j) <= R0 + w / 2 /\ Rabs (fy i j) <= R0 + w / 2 /\
  Rabs (fz i j) <= R0 + w / 2.
Proof.
  intros Hi. pose proof (v_at_range w n i Hn Hi Hw) as Hv.
  apply Rabs_le_between in Hv.
  pose proof (COS_bound (u_at n j / 2)). pose proof (COS_bound (u_at n j)).
  pose proof (SIN_bound (u_at n j / 2)). pose proof (SIN_bound (u_at n j)).
  unfold fx, fy, fz, emb_x, emb_y, emb_z.
  set (vi := v_at w n i) in *. set (c2 := cos (u_at n j / 2)) in *.
  set (s2 := sin (u_at n j / 2)) in *.
  set (cu := cos (u_at n j)) in *. set (su := sin (u_at n j)) in *.
  assert (Hvc : - (w / 2) <= vi * c2 <= w / 2) by nra.
  assert (Hvs : - (w / 2) <= vi * s2 <= w / 2) by nra.
  repeat split; apply Rabs_le; split; nra.
Qed.

(** Every area element is at most [8 (R + w/2) dv]. *)
Lemma dA_bound (i j : nat) :
  (i < n)%nat -> (j < n)%nat ->
  dA_of fx fy fz n i j <= 8 * (R0 + w / 2) * dv.
Proof.
  intros Hi Hj. unfold dA_of.
  rewrite grad_v_x, grad_v_y, grad_v_z by assumption.
  pose proof dv_nonneg as Hdv.
  set (M := R0 + w / 2).
  assert (HM : 0 <= M) by (unfold M; lra).
  assert (Hxu : Rabs (grad_at (fx i) n j) <= 2 * M).
  { apply grad_at_bound; try assumption. intros k _.
    now destruct (coord_bound i k Hi) as (H & _ & _). }
  assert (Hyu : Rabs (grad_at (fy i) n j) <= 2 * M).
  { apply grad_at_bound; try assumption. intros k _.
    now destruct (coord_bound i k Hi) as (_ & H & _). }
  assert (Hzu : Rabs (grad_at (fz i) n j) <= 2 * M).
  { apply grad_at_bound; try assumption. intros k _.
    now destruct (coord_bound i k Hi) as (_ & _ & H). }
  apply Rabs_le_between in Hxu, Hyu, Hzu.
  set (xu := grad_at (fx i) n j) in *. set (yu := grad_at (fy i) n j) in *.
  set (zu := grad_at (fz i) n j) in *.
  pose proof (COS_bound (u_at n j / 2)). pose proof (COS_bound (u_at n j)).
  pose proof (SIN_bound (u_at n j / 2)). pose proof (SIN_bound (u_at n j)).
  set (c2 := cos (u_at n j / 2)) in *. set (s2 := sin (u_at n j / 2)) in *.
  set (cu := cos (u_at n j)) in *. set (su := sin (u_at n j)) in *.
  assert (Hcc : -1 <= c2 * cu <= 1) by nra.
  assert (Hcs : -1 <= c2 * su <= 1) by nra.
  set (a := c2 * cu) in *. set (b := c2 * su) in *.
  assert (Bx : - (4 * M) <= yu * s2 - zu * b <= 4 * M) by nra.
  assert (By : - (4 * M) <= zu * a - xu * s2 <= 4 * M) by nra.
  assert (Bz : - (4 * M) <= xu * b - yu * a <= 4 * M) by nra.
  apply sqrt_le_bound.
  - apply Rmult_le_pos; [nra | assumption].
  - replace (yu * (s2 * dv) - zu * (b * dv)) with ((yu * s2 - zu * b) * dv)
      by ring.
    replace (zu * (a * dv) - xu * (s2 * dv)) with ((zu * a - xu * s2) * dv)
      by ring.
    replace (xu * (b * dv) - yu * (a * dv)) with ((xu * b - yu * a) * dv)
      by ring.
    set (p := yu * s2 - zu * b) in *. set (q := zu * a - xu * s2) in *.
    set (r := xu * b - yu * a) in *.
    assert (p ^ 2 <= 16 * M ^ 2) by nra.
    assert (q ^ 2 <= 16 * M ^ 2) by nra.
    assert (r ^ 2 <= 16 * M ^ 2) by nra.
    assert (0 <= dv ^ 2) by apply pow2_ge_0.
    replace ((p * dv) ^ 2 + (q * dv) ^ 2 + (r * dv) ^ 2)
      with ((p ^ 2 + q ^ 2 + r ^ 2) * dv ^ 2) by ring.
    replace ((8 * M * dv) ^ 2) with (64 * M ^ 2 * dv ^ 2) by ring.
    assert (0 <= M ^ 2) by apply pow2_ge_0.
    nra.
Qed.

Lemma area_value_bounds :
  0 <= area_value R0 w n
  <= INR n * (INR n * (8 * (R0 + w / 2) * dv)) * (2 * PI / INR (n - 1)) * dv.
Proof.
  pose proof dv_nonneg as Hdv. pose proof (INR_pred_pos n Hn) as Hm.
  pose proof PI_RGT_0 as Hpi.
  assert (Hdu : 0 <= 2 * PI / INR (n - 1)).
  { apply Rmult_le_pos; [lra | left; now apply Rinv_0_lt_compat]. }
  unfold area_value. fold fx fy fz dv.
  set (S := bigsum n (fun i => bigsum n (fun j => dA_of fx fy fz n i j))).
  assert (HS0 : 0 <= S).
  { apply bigsum_nonneg; intros i _. apply bigsum_nonneg; intros j _.
    apply dA_of_nonneg. }
  assert (HS1 : S <= INR n * (INR n * (8 * (R0 + w / 2) * dv))).
  { rewrite <- !bigsum_const. apply bigsum_le; intros i Hi.
    apply bigsum_le; intros j Hj. now apply dA_bound. }
  split.
  - apply Rmult_le_pos; [apply Rmult_le_pos|]; assumption.
  - apply Rmult_le_compat_r; [assumption|].
    apply Rmult_le_compat_r; assumption.
Qed.
End AreaElement.

(* ================================================================== *)
(** ** Sign and scaling of the two values *)
(* ================================================================== *)

(** With at least three samples per axis and a positive width the area
    element at the last row of the first column does not vanish. *)
Lemma area_value_pos (R0 w : R) (n : nat) :
  (3 <= n)%nat -> 0 < w -> 0 < area_value R0 w n.
Proof.
  intros Hn Hw.
  assert (Hn2 : (2 <= n)%nat) by lia.
  pose proof (INR_pred_pos n Hn2) as Hm. pose proof PI_RGT_0 as Hpi.
  assert (Hdv : 0 < w / INR (n - 1)) by now apply Rdiv_lt_0_compat.
  assert (Hdu : 0 < 2 * PI / INR (n - 1)) by (apply Rdiv_lt_0_compat; lra).
  unfold area_value.
  assert (Hcell : 0 < dA_of (fun a b => emb_x R0 (v_at w n a) (u_at n b))
                            (fun a b => emb_y R0 (v_at w n a) (u_at n b))
                            (fun a b => emb_z (v_at w n a) (u_at n b))
                            n (n - 1) 0).
  { unfold dA_of. cbv beta.
    rewrite grad_v_x, grad_v_y, grad_v_z by lia.
    rewrite u_at_0. replace (0 / 2) with 0 by field.
    rewrite cos_0, sin_0.
    set (xu := grad_at (fun b => emb_x R0 (v_at w n (n - 1)) (u_at n b)) n 0).
    set (yu := grad_at (fun b => emb_y R0 (v_at w n (n - 1)) (u_at n b)) n 0).
    assert (Hzu : 0 < grad_at (fun b => emb_z (v_at w n (n - 1)) (u_at n b))
                              n 0).
    { unfold grad_at. cbn [Nat.eqb]. unfold emb_z.
      rewrite u_at_0, v_at_last by assumption.
      replace (0 / 2) with 0 by field. rewrite sin_0.
      rewrite (half_angle n Hn2 1). cbn [INR].
      assert (0 < sin (PI * 1 / INR (n - 1))).
      { assert (2 <= INR (n - 1)).
        { change 2 with (INR 2). apply le_INR. lia. }
        assert (0 < PI * 1 / INR (n - 1)) by (apply Rdiv_lt_0_compat; lra).
        assert (PI * 1 / INR (n - 1) <= PI / 2).
        { apply (Rmult_le_reg_r (INR (n - 1))); [assumption|].
          unfold Rdiv. rewrite Rmult_assoc, Rinv_l by lra. nra. }
        apply sin_gt_0; lra. }
      nra. }
    set (zu := grad_at (fun b => emb_z (v_at w n (n - 1)) (u_at n b)) n 0)
      in *.
    set (dv := w / INR (n - 1)) in *.
    assert (Hp : 0 < zu * dv) by now apply Rmult_lt_0_compat.
    eapply Rlt_le_trans; [exact Hp|].
    apply sqrt_ge_bound; [lra|].
    assert (0 <= (yu * (0 * dv) - zu * (1 * 0 * dv)) ^ 2) by apply pow2_ge_0.
    assert (0 <= (xu * (1 * 0 * dv) - yu * (1 * 1 * dv)) ^ 2)
      by apply pow2_ge_0.
    replace (zu * (1 * 1 * dv) - xu * (0 * dv)) with (zu * dv) by ring.
    lra. }
  set (fx := fun a b : nat => emb_x R0 (v_at w n a) (u_at n b)) in *.
  set (fy := fun a b : nat => emb_y R0 (v_at w n a) (u_at n b)) in *.
  set (fz := fun a b : nat => emb_z (v_at w n a) (u_at n b)) in *.
  assert (Hrow : dA_of fx fy fz n (n - 1) 0
                 <= bigsum n (fun j => dA_of fx fy fz n (n - 1) j)).
  { apply (bigsum_ge_term n (fun j => dA_of fx fy fz n (n - 1) j) 0);
      [intros; apply dA_of_nonneg | lia]. }
  assert (Hall : bigsum n (fun j => dA_of fx fy fz n (n - 1) j)
                 <= bigsum n (fun i => bigsum n (fun j => dA_of fx fy fz n i j))).
  { apply (bigsum_ge_term n
             (fun i => bigsum n (fun j => dA_of fx fy fz n i j)) (n - 1));
      [|lia].
    intros i _. apply bigsum_nonneg; intros j _. apply dA_of_nonneg. }
  apply Rmult_lt_0_compat; [apply Rmult_lt_0_compat|]; lra.
Qed.

(** With two samples per axis the [y] and [z] grids are identically zero in
    exact arithmetic (the sines are taken at [0], [PI] and [2 PI]), so every
    area element is. *)
Lemma area_value_n2 (R0 w : R) : area_value R0 w 2 = 0.
Proof.
  unfold area_value.
  assert (Hu : forall b, (b < 2)%nat ->
                 sin (u_at 2 b) = 0 /\ sin (u_at 2 b / 2) = 0).
  { intros b Hb. destruct b as [|[|b]]; try lia.
    - rewrite u_at_0. replace (0 / 2) with 0 by field. now rewrite sin_0.
    - replace (u_at 2 1) with (2 * PI)
        by (symmetry; apply (u_at_last 2); lia).
      replace (2 * PI / 2) with PI by field.
      now rewrite sin_2PI, sin_PI. }
  assert (Hcell : forall i j, (i < 2)%nat -> (j < 2)%nat ->
            dA_of (fun a b => emb_x R0 (v_at w 2 a) (u_at 2 b))
                  (fun a b => emb_y R0 (v_at w 2 a) (u_at 2 b))
                  (fun a b => emb_z (v_at w 2 a) (u_at 2 b)) 2 i j = 0).
  { intros i j Hi Hj.
    rewrite (dA_of_ext _ _ _
               (fun a b => emb_x R0 (v_at w 2 a) (u_at 2 b))
               (fun _ _ => 0) (fun _ _ => 0)); try assumption; try lia.
    - unfold dA_of.
      replace (grad_at (fun _ : nat => 0) 2 j) with 0
        by (unfold grad_at; destruct (j =? 0)%nat; [|destruct (j =? 2 - 1)%nat];
            field).
      replace (grad_at (fun _ : nat => 0) 2 i) with 0
        by (unfold grad_at; destruct (i =? 0)%nat; [|destruct (i =? 2 - 1)%nat];
            field).
      match goal with |- sqrt ?t = 0 => replace t with 0 by ring end.
      apply sqrt_0.
    - reflexivity.
    - intros a b _ Hb. unfold emb_y. destruct (Hu b Hb) as [-> _]. ring.
    - intros a b _ Hb. unfold emb_z. destruct (Hu b Hb) as [_ ->]. ring. }
  rewrite (bigsum_ext 2 _ (fun _ => 0)).
  - rewrite bigsum_const. ring.
  - intros i Hi. rewrite (bigsum_ext 2 _ (fun _ => 0)).
    + rewrite bigsum_const. ring.
    + intros j Hj. now apply Hcell.
Qed.

Lemma grad_at_scal_ext (k : R) (f g : nat -> R) (len i : nat) :
  (forall r, g r = k * f r) -> grad_at g len i = k * grad_at f len i.
Proof.
  intros H. rewrite <- grad_at_scal. unfold grad_at. now rewrite !H.
Qed.

Lemma emb_x_scal (k R0 v u : R) : emb_x (k * R0) (k * v) u = k * emb_x R0 v u.
Proof. unfold emb_x. ring. Qed.

Lemma emb_y_scal (k R0 v u : R) : emb_y (k * R0) (k * v) u = k * emb_y R0 v u.
Proof. unfold emb_y. ring. Qed.

Lemma emb_z_scal (k v u : R) : emb_z (k * v) u = k * emb_z v u.
Proof. unfold emb_z. ring. Qed.

Lemma v_at_scal (k w : R) (n i : nat) : v_at (k * w) n i = k * v_at w n i.
Proof. unfold v_at, Rdiv. ring. Qed.

(** Scaling the coordinates by [k] scales every area element by [k^2]. *)
Lemma dA_of_scal (k : R) (fx fy fz gx gy gz : nat -> nat -> R) (n i j : nat) :
  (forall a b, gx a b = k * fx a b) ->
  (forall a b, gy a b = k * fy a b) ->
  (forall a b, gz a b = k * fz a b) ->
  dA_of gx gy gz n i j = k ^ 2 * dA_of fx fy fz n i j.
Proof.
  intros Hx Hy Hz. unfold dA_of.
  rewrite (grad_at_scal_ext k (fx i) (gx i)),
          (grad_at_scal_ext k (fy i) (gy i)),
          (grad_at_scal_ext k (fz i) (gz i)),
          (grad_at_scal_ext k (fun r => fx r j) (fun r => gx r j)),
          (grad_at_scal_ext k (fun r => fy r j) (fun r => gy r j)),
          (grad_at_scal_ext k (fun r => fz r j) (fun r => gz r j)); auto.
  rewrite <- sqrt_scale_sq by apply pow2_ge_0.
  f_equal. ring.
Qed.

(** The value of [surface_area] is homogeneous of degree three in [(R, w)]:
    two powers from the area elements, one more from [dv = w / (n - 1)]. *)
Lemma area_value_scal (k R0 w : R) (n : nat) :
  area_value (k * R0) (k * w) n = k ^ 3 * area_value R0 w n.
Proof.
  unfold area_value.
  rewrite (bigsum_ext n _
    (fun i => k ^ 2 * bigsum n (fun j =>
       dA_of (fun a b => emb_x R0 (v_at w n a) (u_at n b))
             (fun a b => emb_y R0 (v_at w n a) (u_at n b))
             (fun a b => emb_z (v_at w n a) (u_at n b)) n i j))).
  - rewrite bigsum_scal. unfold Rdiv. ring.
  - intros i _. rewrite <- bigsum_scal. apply bigsum_ext; intros j _.
    apply dA_of_scal; intros a b; rewrite v_at_scal.
    + apply emb_x_scal.
    + apply emb_y_scal.
    + apply emb_z_scal.
Qed.

(** The value of [edge_length] is homogeneous of degree one. *)
Lemma edge_value_scal (k R0 w : R) (n : nat) :
  0 <= k -> edge_value (k * R0) (k * w) n = k * edge_value R0 w n.
Proof.
  intros Hk. unfold edge_value.
  rewrite (bigsum_ext (n - 1) _ (fun i => k * boundary_chord R0 (w / 2) n i)).
  - rewrite bigsum_scal. ring.
  - intros i _. unfold boundary_chord, chord_of.
    replace (k * w / 2) with (k * (w / 2)) by (unfold Rdiv; ring).
    rewrite !emb_x_scal, !emb_y_scal, !emb_z_scal.
    rewrite <- sqrt_scale_sq by assumption. f_equal. ring.
Qed.

Lemma edge_value_nonneg (R0 w : R) (n : nat) : 0 <= edge_value R0 w n.
Proof.
  unfold edge_value.
  assert (0 <= bigsum (n - 1) (boundary_chord R0 (w / 2) n)).
  { apply bigsum_nonneg; intros i _. unfold boundary_chord, chord_of.
    apply sqrt_pos. }
  lra.
Qed.

(** The boundary polygon is at least as long as the gap between its two
    ends: the result of [edge_length] is at least twice the width. *)
Lemma edge_value_ge_width (R0 w : R) (n : nat) :
  (2 <= n)%nat -> 2 * Rabs w <= edge_value R0 w n.
Proof.
  intros Hn. unfold edge_value.
  set (px := fun j => emb_x R0 (w / 2) (u_at n j)).
  assert (Hgap : bigsum (n - 1) (fun j => px (S j) - px j) = - w).
  { rewrite bigsum_telescope. unfold px.
    rewrite u_at_0, u_at_last by assumption.
    destruct (emb_at_0 R0 (w / 2)) as (-> & _ & _).
    destruct (emb_at_2PI R0 (w / 2)) as (-> & _ & _). field. }
  assert (Habs : Rabs w <= bigsum (n - 1) (fun j => Rabs (px (S j) - px j))).
  { rewrite <- (Rabs_Ropp w), <- Hgap. apply Rabs_bigsum_le. }
  assert (Hle : bigsum (n - 1) (fun j => Rabs (px (S j) - px j))
                <= bigsum (n - 1) (boundary_chord R0 (w / 2) n)).
  { apply bigsum_le; intros i _. unfold boundary_chord, chord_of.
    apply sqrt_ge_bound; [apply Rabs_pos|].
    rewrite pow2_abs. unfold px.
    assert (0 <= (emb_y R0 (w / 2) (u_at n (S i))
                  - emb_y R0 (w / 2) (u_at n i)) ^ 2) by apply pow2_ge_0.
    assert (0 <= (emb_z (w / 2) (u_at n (S i))
                  - emb_z (w / 2) (u_at n i)) ^ 2) by apply pow2_ge_0.
    lra. }
  lra.
Qed.

(* ================================================================== *)
(** ** The literal scenario [R = 1.0], [w = 0.5], [n = 200] *)
(* ================================================================== *)

Lemma INR_199 : INR (200 - 1) = 199.
Proof. rewrite INR_IZR_INZ. reflexivity. Qed.

Lemma INR_200 : INR 200 = 200.
Proof. rewrite INR_IZR_INZ. reflexivity. Qed.

(** The half step [PI / 199] and its sine. *)
Lemma half_step_199 :
  let x := PI / 199 in
  157 / 10000 < x < 159 / 10000 /\
  x - 7 / 10000000 <= sin x <= x.
Proof.
  cbv zeta. pose proof PI_bounds as [Hlo Hhi].
  set (x := PI / 199).
  assert (Hx : 157 / 10000 < x < 159 / 10000) by (unfold x; lra).
  split; [assumption|].
  assert (Hc : x - x ^ 3 / 6 <= sin x) by (apply sin_ge_cubic; lra).
  assert (Hs : sin x <= x) by (apply sin_le_x; lra).
  assert (H2 : x * x <= 26 / 100000) by nra.
  assert (H3 : x ^ 3 <= 42 / 10000000).
  { replace (x ^ 3) with (x * (x * x)) by ring. nra. }
  lra.
Qed.

Lemma quarter_step_199 : 0 <= sin (PI / (2 * 199)) <= PI / 199 / 2.
Proof.
  pose proof PI_bounds as [Hlo Hhi].
  replace (PI / (2 * 199)) with (PI / 199 / 2) by field.
  split; [apply sin_ge_0; lra | apply sin_le_x; lra].
Qed.

Lemma edge_value_literal :
  125 / 10 <= edge_value 1 (1 / 2) 200 <= 128 / 10.
Proof.
  unfold edge_value. replace (1 / 2 / 2) with (1 / 4) by field.
  destruct half_step_199 as [Hx [Hs1 Hs2]]. cbv zeta in Hx, Hs1, Hs2.
  pose proof quarter_step_199 as [Hq0 Hq1].
  assert (Hn : (2 <= 200)%nat) by lia.
  split.
  - pose proof (chord_sum_lower 1 (1 / 4) 200 Hn ltac:(lra) ltac:(lra)) as H.
    rewrite INR_199 in H. pose proof PI_bounds.
    set (S := bigsum (200 - 1) (boundary_chord 1 (1 / 4) 200)) in *.
    set (s := sin (PI / 199)) in *. lra.
  - assert (Hslack :
      4 * (1 / 4) ^ 2 * sin (PI / (2 * INR (200 - 1))) ^ 2
      <= 4 * (1 - 1 / 4) * sin (PI / INR (200 - 1))
         * (21 / 1000 * (PI / 199))).
    { rewrite INR_199.
      set (x := PI / 199) in *. set (s := sin x) in *.
      set (q := sin (PI / (2 * 199))) in *.
      assert (q ^ 2 <= (x / 2) ^ 2) by nra.
      assert (x * (x - 7 / 10000000) <= s * x) by nra.
      assert (x * (7 / 10000000) <= x * x * (1 / 1000)) by nra.
      assert (0 <= x * x) by nra.
      nra. }
    pose proof (chord_sum_upper 1 (1 / 4) 200 Hn (21 / 1000 * (PI / 199))
                  ltac:(lra) ltac:(lra) ltac:(lra) Hslack) as H.
    rewrite INR_199 in H. pose proof PI_bounds.
    set (S := bigsum (200 - 1) (boundary_chord 1 (1 / 4) 200)) in *.
    set (s := sin (PI / 199)) in *. lra.
Qed.

Lemma area_value_literal : 0 < area_value 1 (1 / 2) 200 <= 1 / 10.
Proof.
  split; [apply area_value_pos; [lia | lra]|].
  pose proof (area_value_bounds 1 (1 / 2) 200 ltac:(lia) ltac:(lra) ltac:(lra))
    as [_ H].
  cbv zeta in H. rewrite INR_199, INR_200 in H.
  pose proof PI_bounds. lra.
Qed.

(* ================================================================== *)
(** ** The limit of a vanishing width *)
(* ================================================================== *)

(** For widths up to [1] the value of [surface_area] is at most a constant
    times the width. *)
Lemma area_value_small_width (R0 w : R) (n : nat) :
  (2 <= n)%nat -> 0 <= R0 -> 0 <= w -> w <= 1 ->
  0 <= area_value R0 w n
  <= INR n * INR n * 8 * (R0 + 1 / 2) * (2 * PI) * (/ INR (n - 1)) ^ 3 * w.
Proof.
  intros Hn HR Hw0 Hw1.
  destruct (area_value_bounds R0 w n Hn HR Hw0) as [H0 H1]. cbv zeta in H1.
  split; [assumption|]. eapply Rle_trans; [exact H1|].
  pose proof (INR_pred_pos n Hn) as Hm. pose proof PI_RGT_0 as Hpi.
  assert (Him : 0 < / INR (n - 1)) by now apply Rinv_0_lt_compat.
  assert (Hnn : 0 <= INR n) by apply pos_INR.
  set (im := / INR (n - 1)) in *. unfold Rdiv. fold im.
  assert (HC : 0 <= INR n * INR n * 8 * (2 * PI) * im ^ 3).
  { assert (0 <= INR n * INR n) by nra.
    assert (0 <= INR n * INR n * 8 * (2 * PI))
      by (apply Rmult_le_pos; [apply Rmult_le_pos|]; lra).
    apply Rmult_le_pos; [assumption | apply pow_le; lra]. }
  assert (Hq : (R0 + w * / 2) * (w * w) <= (R0 + 1 * / 2) * w).
  { assert (Hww : w * w <= w) by nra.
    apply Rle_trans with ((R0 + w * / 2) * w).
    - apply Rmult_le_compat_l; lra.
    - apply Rmult_le_compat_r; lra. }
  replace (INR n * (INR n * (8 * (R0 + w * / 2) * (w * im))) * (2 * PI * im)
           * (w * im))
    with (INR n * INR n * 8 * (2 * PI) * im ^ 3 * ((R0 + w * / 2) * (w * w)))
    by ring.
  replace (INR n * INR n * 8 * (R0 + 1 * / 2) * (2 * PI) * im ^ 3 * w)
    with (INR n * INR n * 8 * (2 * PI) * im ^ 3 * ((R0 + 1 * / 2) * w))
    by ring.
  now apply Rmult_le_compat_l.
Qed.

(** The value of [edge_length] stays within [4 (n - 1) w] of the doubled
    polygon inscribed in the core circle. *)
Lemma edge_value_near_polygon (R0 w : R) (n : nat) :
  (2 <= n)%nat -> 0 <= w -> w <= 2 * R0 ->
  Rabs (edge_value R0 w n - polygon_limit R0 n) <= 4 * INR (n - 1) * w.
Proof.
  intros Hn Hw0 Hw1.
  pose proof (chord_sum_lower R0 (w / 2) n Hn ltac:(lra) ltac:(lra)) as Hlo.
  pose proof (chord_sum_upper_plain R0 (w / 2) n Hn ltac:(lra) ltac:(lra))
    as Hhi.
  pose proof (sin_half_step_nonneg n Hn) as Hs0.
  pose proof (SIN_bound (PI / INR (n - 1))) as [_ Hs1].
  pose proof (m_ge_1 n Hn) as Hm.
  unfold edge_value, polygon_limit.
  set (S := bigsum (n - 1) (boundary_chord R0 (w / 2) n)) in *.
  set (s := sin (PI / INR (n - 1))) in *. set (m := INR (n - 1)) in *.
  assert (Hsw : 0 <= s * w <= w) by nra.
  assert (Hmw : w <= m * w) by nra.
  apply Rabs_le. split; nra.
Qed.

(** The doubled polygon is below twice the circumference of the core
    circle, by a relative error of at most [PI^2 / (6 (n-1)^2)]. *)
Lemma polygon_limit_bounds (R0 : R) (n : nat) :
  (2 <= n)%nat -> 0 <= R0 ->
  2 * (2 * PI * R0) * (1 - PI ^ 2 / (6 * INR (n - 1) ^ 2))
  <= polygon_limit R0 n <= 2 * (2 * PI * R0).
Proof.
  intros Hn HR. pose proof (INR_pred_pos n Hn) as Hm.
  destruct (half_step_range n Hn) as [Hx0 Hx1].
  pose proof (sin_ge_cubic (PI / INR (n - 1)) ltac:(lra) Hx1) as Hlo.
  pose proof (sin_le_x (PI / INR (n - 1)) ltac:(lra)) as Hhi.
  unfold polygon_limit.
  set (m := INR (n - 1)) in *. set (s := sin (PI / m)) in *.
  assert (E1 : 2 * (2 * PI * R0) = 4 * m * R0 * (PI / m)) by (field; lra).
  assert (E2 : 2 * (2 * PI * R0) * (1 - PI ^ 2 / (6 * m ^ 2))
               = 4 * m * R0 * (PI / m - (PI / m) ^ 3 / 6)) by (field; lra).
  rewrite E1 at 2. rewrite E2.
  assert (Hc : 0 <= 4 * m * R0) by nra.
  split; apply Rmult_le_compat_l; assumption.
Qed.

Lemma polygon_limit_n2 (R0 : R) : polygon_limit R0 2 = 0.
Proof.
  unfold polygon_limit. cbn [Nat.sub INR].
  replace (PI / 1) with PI by field. rewrite sin_PI. ring.
Qed.

(** With two samples the only chord spans the strip: the value is at most
    twice the width. *)
Lemma edge_value_n2 (R0 w : R) :
  0 <= w -> w <= 2 * R0 -> edge_value R0 w 2 <= 2 * w.
Proof.
  intros Hw0 Hw1.
  pose proof (chord_sum_upper_plain R0 (w / 2) 2 ltac:(lia) ltac:(lra)
                ltac:(lra)) as H.
  cbn [Nat.sub INR] in H. replace (PI / 1) with PI in H by field.
  rewrite sin_PI in H. unfold edge_value. cbn [Nat.sub]. lra.
Qed.

(* ================================================================== *)
(** ** Ends of the boundary sample *)
(* ================================================================== *)



(* ================================================================== *)
(** ** Literal values, scaling, vanishing width and the open boundary *)
(* ================================================================== *)

(** C1 (as amended).  In the literal scenario [R = 1.0], [w = 0.5],
    [n = 200] the value of [edge_length] lies in [[12.5, 12.8]]: it is twice
    the one-revolution chord sum. *)
Theorem C1_literal_edge_length :
  exists e : R,
    fst (edge_length (__init__ 1 (1 / 2) 200)) = Some e /\
    125 / 10 <= e <= 128 / 10.
Proof.
  rewrite edge_length_init. eexists. split; [reflexivity|].
  apply edge_value_literal.
Qed.

(** C1 as stated fails: the two values are not in [[3.0, 3.6]] and
    [[6.3, 6.5]]. *)
Lemma C1_literal_ranges_fail :
  ~ (exists a e : R,
       fst (surface_area (__init__ 1 (1 / 2) 200)) = Some a /\
       fst (edge_length (__init__ 1 (1 / 2) 200)) = Some e /\
       3 <= a <= 36 / 10 /\ 63 / 10 <= e <= 65 / 10).
Proof.
  intros (a & e & Ha & He & Hra & Hre).
  rewrite edge_length_init in He. cbn [fst] in He. injection He as <-.
  pose proof edge_value_literal. lra.
Qed.

(** Scaling [(R, w)] by [k] multiplies the result of [surface_area] by
    [k^3] and that of [edge_length] by [k]. *)
Lemma surface_area_scaling (k R0 w : R) (n : nat) :
  (2 <= n)%nat ->
  fst (surface_area (__init__ (k * R0) (k * w) n))
  = Some (k ^ 3 * area_value R0 w n).
Proof.
  intros Hn. rewrite surface_area_init by assumption. cbn [fst].
  now rewrite area_value_scal.
Qed.

Lemma edge_length_scaling (k R0 w : R) (n : nat) :
  0 <= k ->
  fst (edge_length (__init__ (k * R0) (k * w) n))
  = Some (k * edge_value R0 w n).
Proof.
  intros Hk. rewrite edge_length_init. cbn [fst].
  now rewrite edge_value_scal.
Qed.

(** C2.  At [R = 1.0], [w = 0.5], [n = 200] and [k = 2]: the edge length
    doubles, and the surface area is multiplied by [2^3], which is off the
    claimed [2^2] by far more than one percent. *)
Theorem C2_scaling_at_literal :
  exists a e : R,
    fst (surface_area (__init__ 1 (1 / 2) 200)) = Some a /\
    fst (edge_length (__init__ 1 (1 / 2) 200)) = Some e /\
    0 < a /\
    fst (surface_area (__init__ (2 * 1) (2 * (1 / 2)) 200)) = Some (2 ^ 3 * a) /\
    fst (edge_length (__init__ (2 * 1) (2 * (1 / 2)) 200)) = Some (2 * e) /\
    Rabs (2 ^ 3 * a - 2 ^ 2 * a) > 1 / 100 * Rabs (2 ^ 2 * a).
Proof.
  exists (area_value 1 (1 / 2) 200), (edge_value 1 (1 / 2) 200).
  destruct area_value_literal as [Ha _].
  split; [rewrite surface_area_init by lia; reflexivity|].
  split; [rewrite edge_length_init; reflexivity|].
  split; [assumption|].
  split; [apply surface_area_scaling; lia|].
  split; [apply edge_length_scaling; lra|].
  rewrite !Rabs_pos_eq by lra. lra.
Qed.

(** C7 (as amended).  For fixed [R > 0] and [n >= 2], as the width tends to
    zero from above the result of [surface_area] tends to [0] and that of
    [edge_length] tends to [4 (n - 1) R sin (PI / (n - 1))], twice the
    perimeter of the regular polygon of [n - 1] sides inscribed in the core
    circle; this limit is at most [2 * 2 PI R] and falls short of it by a
    relative error of at most [PI^2 / (6 (n - 1)^2)]. *)
Theorem C7_vanishing_width (R0 : R) (n : nat) :
  0 < R0 -> (2 <= n)%nat ->
  (forall eps, 0 < eps -> exists delta, 0 < delta /\
     forall w, 0 < w < delta ->
       exists a, fst (surface_area (__init__ R0 w n)) = Some a /\
                 Rabs (a - 0) < eps) /\
  (forall eps, 0 < eps -> exists delta, 0 < delta /\
     forall w, 0 < w < delta ->
       exists e, fst (edge_length (__init__ R0 w n)) = Some e /\
                 Rabs (e - polygon_limit R0 n) < eps) /\
  2 * (2 * PI * R0) * (1 - PI ^ 2 / (6 * INR (n - 1) ^ 2))
  <= polygon_limit R0 n <= 2 * (2 * PI * R0).
Proof.
  intros HR Hn. pose proof (INR_pred_pos n Hn) as Hm.
  pose proof PI_RGT_0 as Hpi.
  split; [|split; [|apply polygon_limit_bounds; [assumption | lra]]].
  - intros eps Heps.
    set (K := INR n * INR n * 8 * (R0 + 1 / 2) * (2 * PI)
              * (/ INR (n - 1)) ^ 3).
    assert (HK : 0 <= K).
    { unfold K. pose proof (pos_INR n).
      assert (0 < / INR (n - 1)) by now apply Rinv_0_lt_compat.
      assert (0 <= INR n * INR n) by nra.
      assert (0 <= INR n * INR n * 8 * (R0 + 1 / 2) * (2 * PI))
        by (apply Rmult_le_pos; [apply Rmult_le_pos; [apply Rmult_le_pos|]|];
            lra).
      apply Rmult_le_pos; [assumption | apply pow_le; lra]. }
    exists (Rmin 1 (eps / (K + 1))). split.
    + apply Rmin_glb_lt; [lra | apply Rdiv_lt_0_compat; lra].
    + intros w [Hw0 Hw1]. rewrite surface_area_init by assumption.
      eexists. split; [reflexivity|].
      assert (Hw2 : w < 1) by (eapply Rlt_le_trans; [exact Hw1 | apply Rmin_l]).
      assert (Hw3 : w < eps / (K + 1))
        by (eapply Rlt_le_trans; [exact Hw1 | apply Rmin_r]).
      destruct (area_value_small_width R0 w n Hn ltac:(lra) ltac:(lra)
                  ltac:(lra)) as [H0 H1].
      fold K in H1.
      assert (Hkw : (K + 1) * w < eps).
      { apply (Rmult_lt_compat_l (K + 1)) in Hw3; [|lra].
        replace ((K + 1) * (eps / (K + 1))) with eps in Hw3 by (field; lra).
        assumption. }
      rewrite Rminus_0_r, Rabs_pos_eq by assumption. nra.
  - intros eps Heps.
    exists (Rmin (2 * R0) (eps / (4 * INR (n - 1)))). split.
    + apply Rmin_glb_lt; [lra | apply Rdiv_lt_0_compat; lra].
    + intros w [Hw0 Hw1]. rewrite edge_length_init.
      eexists. split; [reflexivity|].
      assert (Hw2 : w < 2 * R0)
        by (eapply Rlt_le_trans; [exact Hw1 | apply Rmin_l]).
      assert (Hw3 : w < eps / (4 * INR (n - 1)))
        by (eapply Rlt_le_trans; [exact Hw1 | apply Rmin_r]).
      pose proof (edge_value_near_polygon R0 w n Hn ltac:(lra) ltac:(lra))
        as H.
      assert (Hkw : 4 * INR (n - 1) * w < eps).
      { apply (Rmult_lt_compat_l (4 * INR (n - 1))) in Hw3; [|lra].
        replace (4 * INR (n - 1) * (eps / (4 * INR (n - 1)))) with eps in Hw3
          by (field; lra).
        assumption. }
      lra.
Qed.

Lemma C7_vanishing_width_witness :
  (0 < 1 /\ (2 <= 200)%nat) /\
  (forall eps, 0 < eps -> exists delta, 0 < delta /\
     forall w, 0 < w < delta ->
       exists a, fst (surface_area (__init__ 1 w 200)) = Some a /\
                 Rabs (a - 0) < eps) /\
  (forall eps, 0 < eps -> exists delta, 0 < delta /\
     forall w, 0 < w < delta ->
       exists e, fst (edge_length (__init__ 1 w 200)) = Some e /\
                 Rabs (e - polygon_limit 1 200) < eps) /\
  2 * (2 * PI * 1) * (1 - PI ^ 2 / (6 * INR (200 - 1) ^ 2))
  <= polygon_limit 1 200 <= 2 * (2 * PI * 1).
Proof.
  split; [split; [lra | lia]|].
  apply (C7_vanishing_width 1 200); [lra | lia].
Defined.

(** C7 as stated fails at [R = 1], [n = 2]: however small the width, the
    result of [edge_length] is not within half of [2 * 2 PI R]. *)
Lemma C7_two_samples_far_from_circle :
  ~ (exists delta, 0 < delta /\
       forall w, 0 < w < delta ->
         exists e, fst (edge_length (__init__ 1 w 2)) = Some e /\
                   Rabs (e - 2 * (2 * PI * 1)) <= 1 / 2 * (2 * (2 * PI * 1))).
Proof.
  intros (delta & Hd & H).
  set (w := Rmin (delta / 2) 1).
  assert (Hw : 0 < w <= 1).
  { unfold w. split; [apply Rmin_glb_lt; lra | apply Rmin_r]. }
  assert (Hwd : w < delta).
  { unfold w. eapply Rle_lt_trans; [apply Rmin_l | lra]. }
  destruct (H w ltac:(lra)) as (e & He & Habs).
  rewrite edge_length_init in He. cbn [fst] in He. injection He as <-.
  pose proof (edge_value_n2 1 w ltac:(lra) ltac:(lra)) as Hup.
  pose proof (edge_value_nonneg 1 w 2) as Hlo.
  pose proof PI_bounds as [Hpi _].
  apply Rabs_le_between in Habs. lra.
Qed.





(* ================================================================== *)
(** ** Further properties of the two estimators *)
(* ================================================================== *)

Lemma init_shape (R0 w : R) (n : nat) (f : nat -> nat -> R) :
  length (tab2 n n f) = n /\ Forall (fun row => length row = n) (tab2 n n f).
Proof.
  unfold tab2. split; [apply tab_length|].
  apply Forall_forall. intros row Hin. unfold tab at 1 in Hin.
  apply in_map_iff in Hin. destruct Hin as (i & <- & _). apply tab_length.
Qed.

(** X1.  Shape invariant: the five grids of a constructed instance have [n]
    rows of [n] entries each. *)
Theorem X1_grid_shapes (R0 w : R) (n : nat) :
  let s := __init__ R0 w n in
  let square := fun a : arr =>
    length a = n /\ Forall (fun row => length row = n) a in
  square (self_u s) /\ square (self_v s) /\
  square (self_x s) /\ square (self_y s) /\ square (self_z s).
Proof.
  cbv zeta. rewrite init_eq. cbn [self_u self_v self_x self_y self_z].
  repeat split; apply (init_shape R0 w).
Qed.

(** X2.  With [n >= 2], scaling [R] and [w] by any [k] multiplies the result
    of [surface_area] by [k^3]. *)
Theorem X2_surface_area_scales_by_cube (k R0 w : R) (n : nat) :
  (2 <= n)%nat ->
  exists a : R,
    fst (surface_area (__init__ R0 w n)) = Some a /\
    fst (surface_area (__init__ (k * R0) (k * w) n)) = Some (k ^ 3 * a).
Proof.
  intros Hn. exists (area_value R0 w n).
  rewrite !surface_area_init by assumption. cbn [fst].
  split; [reflexivity | now rewrite area_value_scal].
Qed.

Lemma X2_surface_area_scales_by_cube_witness :
  (2 <= 3)%nat /\
  exists a : R,
    fst (surface_area (__init__ 1 (1 / 2) 3)) = Some a /\
    fst (surface_area (__init__ (3 * 1) (3 * (1 / 2)) 3)) = Some (3 ^ 3 * a).
Proof.
  split; [lia|]. apply (X2_surface_area_scales_by_cube 3 1 (1 / 2) 3). lia.
Defined.

(** X3.  With [k >= 0], scaling [R] and [w] by [k] multiplies the result of
    [edge_length] by [k], for every resolution. *)
Theorem X3_edge_length_scales_linearly (k R0 w : R) (n : nat) :
  0 <= k ->
  exists e : R,
    fst (edge_length (__init__ R0 w n)) = Some e /\
    fst (edge_length (__init__ (k * R0) (k * w) n)) = Some (k * e).
Proof.
  intros Hk. exists (edge_value R0 w n).
  rewrite !edge_length_init. cbn [fst].
  split; [reflexivity | now rewrite edge_value_scal].
Qed.

Lemma X3_edge_length_scales_linearly_witness :
  0 <= 3 /\
  exists e : R,
    fst (edge_length (__init__ 1 (1 / 2) 3)) = Some e /\
    fst (edge_length (__init__ (3 * 1) (3 * (1 / 2)) 3)) = Some (3 * e).
Proof.
  split; [lra|]. apply (X3_edge_length_scales_linearly 3 1 (1 / 2) 3). lra.
Defined.

(** X4.  Below two samples per axis [surface_area] raises, while
    [edge_length] returns [0]. *)
Theorem X4_degenerate_resolution (R0 w : R) (n : nat) :
  (n < 2)%nat ->
  fst (surface_area (__init__ R0 w n)) = None /\
  fst (edge_length (__init__ R0 w n)) = Some 0.
Proof.
  intros Hn. split; [now apply surface_area_small|].
  rewrite edge_length_init. cbn [fst]. f_equal. unfold edge_value.
  replace (n - 1)%nat with 0%nat by lia. rewrite bigsum_0. ring.
Qed.

Lemma X4_degenerate_resolution_witness :
  (1 < 2)%nat /\
  fst (surface_area (__init__ 1 (1 / 2) 1)) = None /\
  fst (edge_length (__init__ 1 (1 / 2) 1)) = Some 0.
Proof.
  split; [lia|]. apply (X4_degenerate_resolution 1 (1 / 2) 1). lia.
Defined.

(** X5.  With [n >= 2] the result of [edge_length] is at least twice the
    width in absolute value, so it is positive whenever [w] is not zero. *)
Theorem X5_edge_length_at_least_twice_width (R0 w : R) (n : nat) :
  (2 <= n)%nat ->
  exists e : R,
    fst (edge_length (__init__ R0 w n)) = Some e /\ 2 * Rabs w <= e.
Proof.
  intros Hn. rewrite edge_length_init. eexists. split; [reflexivity|].
  now apply edge_value_ge_width.
Qed.

Lemma X5_edge_length_at_least_twice_width_witness :
  (2 <= 2)%nat /\
  exists e : R,
    fst (edge_length (__init__ 1 (1 / 2) 2)) = Some e /\
    2 * Rabs (1 / 2) <= e.
Proof.
  split; [lia|]. apply (X5_edge_length_at_least_twice_width 1 (1 / 2) 2). lia.
Defined.

(** X6.  In exact arithmetic the result of [surface_area] is positive for a
    positive width and [n >= 3], and it is exactly [0] at [n = 2], where
    every entry of the [y] and [z] grids is a multiple of [sin 0], [sin PI]
    or [sin (2 PI)]. *)
Theorem X6_surface_area_sign (R0 w : R) (n : nat) :
  0 < w ->
  ((3 <= n)%nat ->
   exists a : R, fst (surface_area (__init__ R0 w n)) = Some a /\ 0 < a) /\
  fst (surface_area (__init__ R0 w 2)) = Some 0.
Proof.
  intros Hw. split.
  - intros Hn. rewrite surface_area_init by lia. eexists.
    split; [reflexivity | now apply area_value_pos].
  - rewrite surface_area_init by lia. cbn [fst]. f_equal.
    apply area_value_n2.
Qed.

Lemma X6_surface_area_sign_witness :
  0 < 1 / 2 /\
  ((3 <= 3)%nat ->
   exists a : R,
     fst (surface_area (__init__ 1 (1 / 2) 3)) = Some a /\ 0 < a) /\
  fst (surface_area (__init__ 1 (1 / 2) 2)) = Some 0.
Proof.
  split; [lra|]. apply (X6_surface_area_sign 1 (1 / 2) 3). lra.
Defined.

(** X7.  In the literal scenario [R = 1.0], [w = 0.5], [n = 200] the result
    of [surface_area] is positive and at most [0.1]. *)
Theorem X7_literal_surface_area :
  exists a : R,
    fst (surface_area (__init__ 1 (1 / 2) 200)) = Some a /\ 0 < a <= 1 / 10.
Proof.
  rewrite surface_area_init by lia. eexists. split; [reflexivity|].
  apply area_value_literal.
Qed.

(* ================================================================== *)
(** ** Symmetries of the samples *)
(* ================================================================== *)

Lemma u_at_rev (n j : nat) :
  (2 <= n)%nat -> (j < n)%nat -> u_at n (n - 1 - j) = 2 * PI - u_at n j.
Proof.
  intros Hn Hj. pose proof (INR_pred_pos n Hn). unfold u_at.
  replace (n - 1 - j)%nat with ((n - 1) - j)%nat by lia.
  rewrite minus_INR by lia. field. lra.
Qed.

Lemma v_at_rev (w : R) (n i : nat) :
  (2 <= n)%nat -> (i < n)%nat -> v_at w n (n - 1 - i) = - v_at w n i.
Proof.
  intros Hn Hi. pose proof (INR_pred_pos n Hn). unfold v_at.
  rewrite minus_INR by lia. field. lra.
Qed.

Lemma v_at_opp (w : R) (n i : nat) : v_at (- w) n i = - v_at w n i.
Proof. unfold v_at, Rdiv. ring. Qed.

Lemma cos_2PI_minus (u : R) : cos (2 * PI - u) = cos u.
Proof. rewrite cos_minus, cos_2PI, sin_2PI. ring. Qed.

Lemma sin_2PI_minus (u : R) : sin (2 * PI - u) = - sin u.
Proof. rewrite sin_minus, cos_2PI, sin_2PI. ring. Qed.

(** The half turn about the [x] axis: the point at [(2 PI - u, - v)] is the
    point at [(u, v)] with [y] and [z] negated. *)
Lemma emb_half_turn (R0 v u : R) :
  emb_x R0 (- v) (2 * PI - u) = emb_x R0 v u /\
  emb_y R0 (- v) (2 * PI - u) = - emb_y R0 v u /\
  emb_z (- v) (2 * PI - u) = - emb_z v u.
Proof.
  unfold emb_x, emb_y, emb_z.
  replace ((2 * PI - u) / 2) with (PI - u / 2) by field.
  rewrite Rtrigo_facts.cos_pi_minus, sin_PI_x, cos_2PI_minus, sin_2PI_minus.
  repeat split; ring.
Qed.

(** A chord of the boundary at offset [- v] is the mirrored chord of the
    boundary at offset [v], counted from the other end. *)
Lemma boundary_chord_opp (R0 v : R) (n i : nat) :
  (2 <= n)%nat -> (i < n - 1)%nat ->
  boundary_chord R0 (- v) n i = boundary_chord R0 v n (n - 2 - i).
Proof.
  intros Hn Hi. unfold boundary_chord, chord_of.
  replace (S (n - 2 - i)) with (n - 1 - i)%nat by lia.
  replace (n - 2 - i)%nat with (n - 1 - S i)%nat by lia.
  rewrite !u_at_rev by lia.
  destruct (emb_half_turn R0 (- v) (u_at n i)) as (Ex & Ey & Ez).
  destruct (emb_half_turn R0 (- v) (u_at n (S i))) as (Fx & Fy & Fz).
  rewrite Ropp_involutive in Ex, Ey, Ez, Fx, Fy, Fz.
  rewrite Ex, Ey, Ez, Fx, Fy, Fz. f_equal. ring.
Qed.

Lemma edge_value_even (R0 w : R) (n : nat) :
  edge_value R0 (- w) n = edge_value R0 w n.
Proof.
  unfold edge_value. f_equal.
  destruct (le_lt_dec 2 n) as [Hn|Hn].
  - rewrite (bigsum_rev (n - 1) (boundary_chord R0 (w / 2) n)).
    apply bigsum_ext; intros i Hi.
    replace (- w / 2) with (- (w / 2)) by field.
    rewrite boundary_chord_opp by assumption. f_equal. lia.
  - replace (n - 1)%nat with 0%nat by lia. reflexivity.
Qed.

(** The gradient of a reversed sequence is the negated gradient, read from
    the other end. *)
Lemma grad_at_rev (h : nat -> R) (n i : nat) :
  (2 <= n)%nat -> (i < n)%nat ->
  grad_at (fun r => h (n - 1 - r)%nat) n i = - grad_at h n (n - 1 - i).
Proof.
  intros Hn Hi. unfold grad_at.
  destruct (Nat.eqb_spec i 0) as [->|H0].
  - replace (n - 1 - 0)%nat with (n - 1)%nat by lia.
    destruct (Nat.eqb_spec (n - 1) 0); [lia|]. rewrite Nat.eqb_refl.
    replace (n - 1 - 1)%nat with (n - 2)%nat by lia. ring.
  - destruct (Nat.eqb_spec i (n - 1)) as [->|H1].
    + replace (n - 1 - (n - 1))%nat with 0%nat by lia.
      replace (n - 1 - (n - 2))%nat with 1%nat by lia.
      cbn [Nat.eqb]. ring.
    + destruct (Nat.eqb_spec (n - 1 - i) 0); [lia|].
      destruct (Nat.eqb_spec (n - 1 - i) (n - 1)); [lia|].
      replace (n - 1 - (i + 1))%nat with (n - 1 - i - 1)%nat by lia.
      replace (n - 1 - (i - 1))%nat with (n - 1 - i + 1)%nat by lia.
      field.
Qed.

(** Reversing the rows of the three tables keeps every area element, at the
    mirrored row. *)
Lemma dA_of_row_rev (fx fy fz : nat -> nat -> R) (n i j : nat) :
  (2 <= n)%nat -> (i < n)%nat -> (j < n)%nat ->
  dA_of (fun a b => fx (n - 1 - a)%nat b) (fun a b => fy (n - 1 - a)%nat b)
        (fun a b => fz (n - 1 - a)%nat b) n i j
  = dA_of fx fy fz n (n - 1 - i) j.
Proof.
  intros Hn Hi Hj. unfold dA_of.
  rewrite (grad_at_rev (fun r => fx r j)), (grad_at_rev (fun r => fy r j)),
          (grad_at_rev (fun r => fz r j)) by assumption.
  change (grad_at (fun b : nat => fx (n - 1 - i)%nat b) n j)
    with (grad_at (fx (n - 1 - i)%nat) n j).
  change (grad_at (fun b : nat => fy (n - 1 - i)%nat b) n j)
    with (grad_at (fy (n - 1 - i)%nat) n j).
  change (grad_at (fun b : nat => fz (n - 1 - i)%nat b) n j)
    with (grad_at (fz (n - 1 - i)%nat) n j).
  f_equal. ring.
Qed.

Lemma area_value_odd (R0 w : R) (n : nat) :
  (2 <= n)%nat -> area_value R0 (- w) n = - area_value R0 w n.
Proof.
  intros Hn. unfold area_value.
  set (fx := fun a b : nat => emb_x R0 (v_at w n a) (u_at n b)).
  set (fy := fun a b : nat => emb_y R0 (v_at w n a) (u_at n b)).
  set (fz := fun a b : nat => emb_z (v_at w n a) (u_at n b)).
  assert (Hsum :
    bigsum n (fun i => bigsum n (fun j =>
      dA_of (fun a b => emb_x R0 (v_at (- w) n a) (u_at n b))
            (fun a b => emb_y R0 (v_at (- w) n a) (u_at n b))
            (fun a b => emb_z (v_at (- w) n a) (u_at n b)) n i j))
    = bigsum n (fun i => bigsum n (fun j => dA_of fx fy fz n i j))).
  { rewrite (bigsum_rev n (fun i => bigsum n (fun j => dA_of fx fy fz n i j))).
    apply bigsum_ext; intros i Hi. apply bigsum_ext; intros j Hj.
    rewrite <- dA_of_row_rev by assumption.
    apply dA_of_ext; try assumption; intros a b Ha Hb; unfold fx, fy, fz;
      rewrite v_at_opp, v_at_rev by assumption; reflexivity. }
  rewrite Hsum. unfold Rdiv. ring.
Qed.


(** Every grid point is at distance [|v|] from the point of the core circle
    at its angle. *)
Lemma emb_core_distance (R0 v u : R) :
  dist3 (core_point R0 u) (emb_x R0 v u, emb_y R0 v u, emb_z v u) = Rabs v.
Proof.
  unfold dist3, core_point, emb_x, emb_y, emb_z.
  pose proof (sin2_cos2 u) as H1. pose proof (sin2_cos2 (u / 2)) as H2.
  unfold Rsqr in H1, H2.
  set (cu := cos u) in *. set (su := sin u) in *.
  set (ca := cos (u / 2)) in *. set (sa := sin (u / 2)) in *.
  replace (((R0 + v * ca) * cu - R0 * cu) ^ 2
           + ((R0 + v * ca) * su - R0 * su) ^ 2 + (v * sa - 0) ^ 2)
    with (v * v * (ca * ca * (su * su + cu * cu) + sa * sa)) by ring.
  rewrite H1. replace (ca * ca * 1 + sa * sa) with (sa * sa + ca * ca) by ring.
  rewrite H2, Rmult_1_r. fold (Rsqr v). apply sqrt_Rsqr_abs.
Qed.

Lemma v_at_abs_range (w : R) (n i : nat) :
  (i < n)%nat -> Rabs (v_at w n i) <= Rabs w / 2.
Proof.
  intros Hi. destruct (le_lt_dec 2 n) as [Hn|Hn].
  - destruct (Rle_lt_dec 0 w) as [Hw|Hw].
    + rewrite (Rabs_pos_eq w) by assumption. now apply v_at_range.
    + rewrite (Rabs_left w) by assumption.
      rewrite <- (Rabs_Ropp (v_at w n i)), <- v_at_opp.
      apply v_at_range; try assumption. lra.
  - assert (i = 0%nat) by lia. subst i. rewrite v_at_0.
    replace (- w / 2) with (- (w / 2)) by field.
    rewrite Rabs_Ropp. unfold Rdiv. rewrite Rabs_mult.
    rewrite (Rabs_pos_eq (/ 2)) by lra. lra.
Qed.

(* ================================================================== *)
(** ** Bounds that hold at every resolution *)
(* ================================================================== *)

(** The upper bound of a chord with the half-twist part kept. *)
Lemma boundary_chord_upper_twist (R0 v : R) (n i : nat) :
  (2 <= n)%nat -> 0 <= v -> v <= R0 -> (i < n - 1)%nat ->
  boundary_chord R0 v n i
  <= 2 * rho R0 v n i * sin (PI / INR (n - 1))
     + 2 * v * sin (PI / (2 * INR (n - 1))).
Proof.
  intros Hn Hv HvR Hi. rewrite boundary_chord_sq by assumption.
  pose proof (sin_half_step_nonneg n Hn) as Hs.
  pose proof (sin_quarter_step_range n Hn) as [Ha0 Ha1].
  pose proof (rho_bounds R0 v n i Hv) as [Hr1 _].
  pose proof (rho_bounds R0 v n (S i) Hv) as [Hr2 _].
  pose proof (rho_decr R0 v n Hn i Hv Hi) as Hd.
  set (r := rho R0 v n i) in *. set (r' := rho R0 v n (S i)) in *.
  set (s := sin (PI / INR (n - 1))) in *.
  set (a := sin (PI / (2 * INR (n - 1)))) in *.
  assert (Hrs : 0 <= r * s) by (apply Rmult_le_pos; lra).
  assert (Hva : 0 <= v * a) by (apply Rmult_le_pos; lra).
  apply sqrt_le_bound; [lra|].
  assert (0 <= (r - r') * r * s ^ 2).
  { apply Rmult_le_pos; [nra | apply pow2_ge_0]. }
  assert (0 <= (r * s) * (v * a)) by now apply Rmult_le_pos.
  nra.
Qed.

(** The result of [edge_length] against the doubled inscribed polygon: the
    gap is of the order of the width, whatever the resolution. *)
Lemma edge_value_polygon_gap (R0 w : R) (n : nat) :
  (2 <= n)%nat -> 0 <= w -> w <= 2 * R0 ->
  polygon_limit R0 n - 2 * PI * w / INR (n - 1)
  <= edge_value R0 w n
  <= polygon_limit R0 n + PI * w + 2 * PI * w / INR (n - 1).
Proof.
  intros Hn Hw0 Hw1.
  pose proof (INR_pred_pos n Hn) as Hm. pose proof PI_RGT_0 as Hpi.
  destruct (half_step_range n Hn) as [Hx0 Hx1].
  pose proof (sin_half_step_nonneg n Hn) as Hs0.
  pose proof (sin_le_x (PI / INR (n - 1)) ltac:(lra)) as Hs1.
  pose proof (sin_quarter_step_range n Hn) as [Hq0 _].
  assert (Hq1 : sin (PI / (2 * INR (n - 1))) <= PI / (2 * INR (n - 1))).
  { apply sin_le_x. apply Rmult_le_pos; [lra|].
    left. apply Rinv_0_lt_compat. lra. }
  pose proof (chord_sum_lower R0 (w / 2) n Hn ltac:(lra) ltac:(lra)) as Hlo.
  assert (Hhi : bigsum (n - 1) (boundary_chord R0 (w / 2) n)
                <= 2 * sin (PI / INR (n - 1)) * (INR (n - 1) * R0 + w / 2)
                   + INR (n - 1) * (2 * (w / 2)
                                    * sin (PI / (2 * INR (n - 1))))).
  { rewrite <- (rho_sum_head R0 (w / 2) n Hn), <- bigsum_scal.
    rewrite <- bigsum_const, <- bigsum_plus.
    apply bigsum_le; intros i Hi.
    pose proof (boundary_chord_upper_twist R0 (w / 2) n i Hn ltac:(lra)
                  ltac:(lra) Hi). lra. }
  unfold edge_value, polygon_limit.
  set (S := bigsum (n - 1) (boundary_chord R0 (w / 2) n)) in *.
  set (m := INR (n - 1)) in *.
  set (s := sin (PI / m)) in *. set (q := sin (PI / (2 * m))) in *.
  assert (Em : PI / m * m = PI) by (field; lra).
  assert (Eq : PI / (2 * m) * m = PI / 2) by (field; lra).
  assert (Hsw : s * w <= PI / m * w) by (apply Rmult_le_compat_r; lra).
  assert (Hmq : m * q <= PI / 2).
  { rewrite <- Eq, (Rmult_comm m q). apply Rmult_le_compat_r; lra. }
  assert (Hmqw : m * q * w <= PI / 2 * w) by (apply Rmult_le_compat_r; lra).
  replace (2 * PI * w / m) with (2 * (PI / m * w)) by (field; lra).
  split; nra.
Qed.

(** The result of [surface_area] is at most a constant over [n - 1]. *)
Lemma area_value_decay (R0 w : R) (n : nat) :
  (2 <= n)%nat -> 0 <= R0 -> 0 <= w ->
  0 <= area_value R0 w n
  <= 64 * PI * (R0 + w / 2) * w ^ 2 / INR (n - 1).
Proof.
  intros Hn HR Hw.
  destruct (area_value_bounds R0 w n Hn HR Hw) as [H0 H1]. cbv zeta in H1.
  split; [assumption|]. eapply Rle_trans; [exact H1|].
  pose proof (INR_pred_pos n Hn) as Hm. pose proof PI_RGT_0 as Hpi.
  assert (Hn1 : INR n = INR (n - 1) + 1).
  { rewrite <- S_INR. f_equal. lia. }
  pose proof (m_ge_1 n Hn) as Hm1.
  assert (Him : 0 < / INR (n - 1)) by now apply Rinv_0_lt_compat.
  set (m := INR (n - 1)) in *. set (im := / m) in *.
  assert (Emi : m * im = 1) by (unfold im; field; lra).
  assert (Hnim : INR n * im <= 2).
  { rewrite Hn1. replace ((m + 1) * im) with (m * im + im) by ring.
    assert (im <= 1).
    { unfold im. rewrite <- Rinv_1. apply Rinv_le_contravar; lra. }
    lra. }
  assert (Hnim0 : 0 <= INR n * im).
  { apply Rmult_le_pos; [apply pos_INR | lra]. }
  assert (Hsq : (INR n * im) * (INR n * im) <= 4) by nra.
  assert (HK : 0 <= 16 * PI * (R0 + w / 2) * (w * w) * im).
  { apply Rmult_le_pos; [|lra]. apply Rmult_le_pos; [|nra].
    apply Rmult_le_pos; lra. }
  unfold Rdiv. fold im.
  replace (INR n * (INR n * (8 * (R0 + w * / 2) * (w * im))) * (2 * PI * im)
           * (w * im))
    with (16 * PI * (R0 + w * / 2) * (w * w) * im
          * ((INR n * im) * (INR n * im))) by ring.
  replace (64 * PI * (R0 + w * / 2) * w ^ 2 * im)
    with (16 * PI * (R0 + w * / 2) * (w * w) * im * 4) by ring.
  apply Rmult_le_compat_l; [|assumption].
  unfold Rdiv in HK. exact HK.
Qed.

(* ================================================================== *)
(** ** The boundary rows, the sign of the width and the mesh *)
(* ================================================================== *)



(** X9.  With [n >= 2], negating the width negates the result of
    [surface_area] and keeps the result of [edge_length]. *)
Theorem X9_negated_width (R0 w : R) (n : nat) :
  (2 <= n)%nat ->
  exists a e : R,
    fst (surface_area (__init__ R0 w n)) = Some a /\
    fst (edge_length (__init__ R0 w n)) = Some e /\
    fst (surface_area (__init__ R0 (- w) n)) = Some (- a) /\
    fst (edge_length (__init__ R0 (- w) n)) = Some e.
Proof.
  intros Hn. exists (area_value R0 w n), (edge_value R0 w n).
  rewrite !surface_area_init, !edge_length_init by assumption. cbn [fst].
  rewrite area_value_odd, edge_value_even by assumption.
  repeat split.
Qed.

Lemma X9_negated_width_witness :
  (2 <= 3)%nat /\
  exists a e : R,
    fst (surface_area (__init__ 1 (1 / 2) 3)) = Some a /\
    fst (edge_length (__init__ 1 (1 / 2) 3)) = Some e /\
    fst (surface_area (__init__ 1 (- (1 / 2)) 3)) = Some (- a) /\
    fst (edge_length (__init__ 1 (- (1 / 2)) 3)) = Some e.
Proof.
  split; [lia|]. apply (X9_negated_width 1 (1 / 2) 3). lia.
Defined.

(** X10.  At width zero, with [n >= 2] and [R >= 0], [surface_area] returns
    [0] and [edge_length] returns [4 (n - 1) R sin (PI / (n - 1))], twice
    the perimeter of the regular polygon of [n - 1] sides inscribed in the
    core circle. *)
Theorem X10_zero_width (R0 : R) (n : nat) :
  (2 <= n)%nat -> 0 <= R0 ->
  fst (surface_area (__init__ R0 0 n)) = Some 0 /\
  fst (edge_length (__init__ R0 0 n)) = Some (polygon_limit R0 n).
Proof.
  intros Hn HR.
  rewrite surface_area_init, edge_length_init by assumption. cbn [fst].
  split; f_equal.
  - unfold area_value, Rdiv. ring.
  - pose proof (edge_value_near_polygon R0 0 n Hn ltac:(lra) ltac:(lra)) as H.
    rewrite Rmult_0_r in H. apply Rabs_le_between in H. lra.
Qed.

Lemma X10_zero_width_witness :
  ((2 <= 3)%nat /\ 0 <= 1) /\
  fst (surface_area (__init__ 1 0 3)) = Some 0 /\
  fst (edge_length (__init__ 1 0 3)) = Some (polygon_limit 1 3).
Proof.
  split; [split; [lia | lra]|]. apply (X10_zero_width 1 3); [lia | lra].
Defined.

(** X11.  For [0 <= w <= 2 R] and every [n >= 2] the result of
    [edge_length] is within [PI w (1 + 2 / (n - 1))] of the doubled
    inscribed polygon, and it never exceeds [4 PI R + 3 PI w]. *)
Theorem X11_edge_length_bounds (R0 w : R) (n : nat) :
  (2 <= n)%nat -> 0 <= w -> w <= 2 * R0 ->
  exists e : R,
    fst (edge_length (__init__ R0 w n)) = Some e /\
    polygon_limit R0 n - 2 * PI * w / INR (n - 1) <= e /\
    e <= polygon_limit R0 n + PI * w + 2 * PI * w / INR (n - 1) /\
    e <= 4 * PI * R0 + 3 * PI * w.
Proof.
  intros Hn Hw0 Hw1. rewrite edge_length_init. eexists.
  split; [reflexivity|].
  destruct (edge_value_polygon_gap R0 w n Hn Hw0 Hw1) as [Hlo Hhi].
  destruct (polygon_limit_bounds R0 n Hn ltac:(lra)) as [_ Hp].
  pose proof (m_ge_1 n Hn) as Hm. pose proof PI_RGT_0 as Hpi.
  repeat split; try assumption.
  assert (Hq : 2 * PI * w / INR (n - 1) <= 2 * PI * w).
  { assert (Hpw : 0 <= 2 * PI * w) by nra.
    apply (Rmult_le_reg_r (INR (n - 1))); [lra|].
    unfold Rdiv. rewrite Rmult_assoc, Rinv_l by lra. nra. }
  lra.
Qed.

Lemma X11_edge_length_bounds_witness :
  ((2 <= 200)%nat /\ 0 <= 1 / 2 /\ 1 / 2 <= 2 * 1) /\
  exists e : R,
    fst (edge_length (__init__ 1 (1 / 2) 200)) = Some e /\
    polygon_limit 1 200 - 2 * PI * (1 / 2) / INR (200 - 1) <= e /\
    e <= polygon_limit 1 200 + PI * (1 / 2)
         + 2 * PI * (1 / 2) / INR (200 - 1) /\
    e <= 4 * PI * 1 + 3 * PI * (1 / 2).
Proof.
  split; [split; [lia | lra]|].
  apply (X11_edge_length_bounds 1 (1 / 2) 200); [lia | lra | lra].
Defined.

(** X12.  For [R >= 0] and [w >= 0] the result of [surface_area] tends to
    zero as the resolution grows: from some [N] on it is below any given
    positive bound, being at most [64 PI (R + w/2) w^2 / (n - 1)]. *)
Theorem X12_surface_area_vanishes_with_resolution (R0 w eps : R) :
  0 <= R0 -> 0 <= w -> 0 < eps ->
  exists N : nat, forall n : nat, (N <= n)%nat ->
    exists a : R,
      fst (surface_area (__init__ R0 w n)) = Some a /\
      0 <= a <= 64 * PI * (R0 + w / 2) * w ^ 2 / INR (n - 1) /\
      a < eps.
Proof.
  intros HR Hw Heps. pose proof PI_RGT_0 as Hpi.
  set (K := 64 * PI * (R0 + w / 2) * w ^ 2).
  assert (HK : 0 <= K).
  { unfold K. apply Rmult_le_pos; [|apply pow2_ge_0].
    apply Rmult_le_pos; lra. }
  destruct (archimed_cor1 (eps / (K + 1))) as (N0 & HN0 & Hpos).
  { apply Rdiv_lt_0_compat; lra. }
  exists (S N0). intros n Hn.
  assert (Hn2 : (2 <= n)%nat) by lia.
  rewrite surface_area_init by assumption. eexists. split; [reflexivity|].
  destruct (area_value_decay R0 w n Hn2 HR Hw) as [H0 H1]. fold K in H1.
  split; [split; assumption|].
  assert (HN0pos : 0 < INR N0) by now apply lt_0_INR.
  assert (Hm : INR N0 <= INR (n - 1)) by (apply le_INR; lia).
  assert (Hinv : / INR (n - 1) <= / INR N0)
    by (apply Rinv_le_contravar; assumption).
  assert (Hlt : K * / INR (n - 1) <= K * (eps / (K + 1))).
  { apply Rmult_le_compat_l; [assumption | lra]. }
  assert (Hfin : K * (eps / (K + 1)) < eps).
  { assert (E : K * (eps / (K + 1)) = eps - eps / (K + 1)) by (field; lra).
    assert (0 < eps / (K + 1)) by (apply Rdiv_lt_0_compat; lra). lra. }
  unfold Rdiv in H1 at 1. lra.
Qed.

Lemma X12_surface_area_vanishes_with_resolution_witness :
  (0 <= 1 /\ 0 <= 1 / 2 /\ 0 < 1 / 1000) /\
  exists N : nat, forall n : nat, (N <= n)%nat ->
    exists a : R,
      fst (surface_area (__init__ 1 (1 / 2) n)) = Some a /\
      0 <= a <= 64 * PI * (1 + 1 / 2 / 2) * (1 / 2) ^ 2 / INR (n - 1) /\
      a < 1 / 1000.
Proof.
  split; [lra|].
  apply (X12_surface_area_vanishes_with_resolution 1 (1 / 2) (1 / 1000)); lra.
Defined.

(** X13.  Every point of the cached mesh lies at distance [|v|] from the
    point of the core circle at its angle, where [v] is the width sample of
    its row; that distance is at most [|w| / 2]. *)
Theorem X13_mesh_within_half_width (R0 w : R) (n i j : nat) :
  (i < n)%nat -> (j < n)%nat ->
  let s := __init__ R0 w n in
  dist3 (core_point R0 (u_at n j)) (grid_point s i j) = Rabs (v_at w n i) /\
  Rabs (v_at w n i) <= Rabs w / 2.
Proof.
  intros Hi Hj s. split; [|now apply v_at_abs_range].
  unfold grid_point, s.
  destruct (init_get2 R0 w n i j Hi Hj) as (-> & -> & ->).
  apply emb_core_distance.
Qed.

Lemma X13_mesh_within_half_width_witness :
  ((1 < 3)%nat /\ (2 < 3)%nat) /\
  dist3 (core_point 1 (u_at 3 2)) (grid_point (__init__ 1 (1 / 2) 3) 1 2)
  = Rabs (v_at (1 / 2) 3 1) /\
  Rabs (v_at (1 / 2) 3 1) <= Rabs (1 / 2) / 2.
Proof.
  split; [lia|]. apply (X13_mesh_within_half_width 1 (1 / 2) 3 1 2); lia.
Defined.

(** X14.  The seam of the strip: with [n >= 2] the last column of the mesh
    (angle [2 PI]) is its first column (angle [0]) with the rows in reverse
    order, which is the half twist. *)
Theorem X14_seam_is_reversed_first_column (R0 w : R) (n i : nat) :
  (2 <= n)%nat -> (i < n)%nat ->
  let s := __init__ R0 w n in
  grid_point s i (n - 1) = grid_point s (n - 1 - i) 0 /\
  grid_point s i (n - 1) = (R0 - v_at w n i, 0, 0).
Proof.
  intros Hn Hi s. unfold grid_point, s.
  destruct (init_get2 R0 w n i (n - 1)) as (-> & -> & ->); try lia.
  destruct (init_get2 R0 w n (n - 1 - i) 0) as (-> & -> & ->); try lia.
  rewrite u_at_last, u_at_0, v_at_rev by assumption.
  destruct (emb_at_2PI R0 (v_at w n i)) as (-> & -> & ->).
  destruct (emb_at_0 R0 (- v_at w n i)) as (-> & -> & ->).
  split; reflexivity.
Qed.

Lemma X14_seam_is_reversed_first_column_witness :
  ((2 <= 3)%nat /\ (0 < 3)%nat) /\
  grid_point (__init__ 1 (1 / 2) 3) 0 (3 - 1)
  = grid_point (__init__ 1 (1 / 2) 3) (3 - 1 - 0) 0 /\
  grid_point (__init__ 1 (1 / 2) 3) 0 (3 - 1)
  = (1 - v_at (1 / 2) 3 0, 0, 0).
Proof.
  split; [lia|].
  apply (X14_seam_is_reversed_first_column 1 (1 / 2) 3 0); lia.
Defined.


